(** * Fuzzy filter-rank engine: sequential matching across aliases

    A shallow embedding of [fuzzySequentialMatch], [fuzzyFilterSort],
    [createMatchDecorator] and [_decorateMatch], followed by the properties
    of the natural-language specification that concern them.

    Conventions.
    - JavaScript strings are [string]s; offsets are [Z] and are clamped the
      way [String.prototype.substring] clamps them.
    - Scores are integers ([Z]); fractions, NaN and the infinities a
      JavaScript number could also be are outside the model, except for
      [Number.NEGATIVE_INFINITY], the initial value of the running maximum,
      which is a constructor of [number].
    - Items are objects in a store ([heap]); the collection handed to
      [fuzzyFilterSort] is a list of references, so that aliasing and
      in-place mutation are visible.
    - The scorer and the decorator are first taken as functions that
      return and write nothing, and an assignment to an item as one that
      succeeds.  [Effects] embeds the same two functions with calls that
      may throw, a decorator that may write to the scores it is handed and
      fields that may refuse a write, and is shown to agree with the first
      embedding where none of this happens.
    - The [updated] callback of the service-action editor, which shares the
      source file, is embedded in [HaServiceAction] over a small model of
      JavaScript values; what it imports is a parameter. *)

From Stdlib Require Import ZArith List Bool Lia Ascii String.
From Stdlib Require Import Sorted Permutation DecimalString.
Import ListNotations.

Open Scope string_scope.
Open Scope Z_scope.

(** ** The JavaScript string primitives the code calls *)

Module JS.

(** [String.prototype.toLowerCase], on the ASCII letters (characters are
    bytes here; every other byte is left as it is). *)
Definition lower_ascii (c : ascii) : ascii :=
  let n := nat_of_ascii c in
  if ((65 <=? n)%nat && (n <=? 90)%nat)%bool then ascii_of_nat (n + 32) else c.

Fixpoint toLowerCase (s : string) : string :=
  match s with
  | EmptyString => EmptyString
  | String c r => String (lower_ascii c) (toLowerCase r)
  end.

(** An index argument of [substring]: negative values count as 0 and values
    past the end as the length. *)
Definition clamp (s : string) (i : Z) : nat :=
  Nat.min (Z.to_nat i) (String.length s).

(** [s.substring(a, b)]: both indices are clamped, and swapped when [a > b]. *)
Definition substring (s : string) (a b : Z) : string :=
  let a' := clamp s a in
  let b' := clamp s b in
  String.substring (Nat.min a' b') (Nat.max a' b' - Nat.min a' b') s.

(** [s.substring(a)]: up to the end of the string. *)
Definition substring_from (s : string) (a : Z) : string :=
  substring s a (Z.of_nat (String.length s)).

(** [s.split(sep)] for a non-empty separator, scanning left to right:
    [cur] is the fragment being read and [skip] counts the characters of a
    separator occurrence that are still to be passed over. *)
Fixpoint split_from (sep : string) (skip : nat) (cur : string) (s : string)
  : list string :=
  match s with
  | EmptyString => [cur]
  | String c r =>
      match skip with
      | S k => split_from sep k cur r
      | O =>
          if String.prefix sep s
          then cur :: split_from sep (String.length sep - 1) EmptyString r
          else split_from sep 0 (cur ++ String c EmptyString) r
      end
  end.

Fixpoint chars (s : string) : list string :=
  match s with
  | EmptyString => []
  | String c r => String c EmptyString :: chars r
  end.

Definition split (sep : string) (s : string) : list string :=
  match sep with
  | EmptyString => chars s
  | _ => split_from sep 0 EmptyString s
  end.

(** [a.join(sep)] *)
Fixpoint join (sep : string) (l : list string) : string :=
  match l with
  | [] => EmptyString
  | [x] => x
  | x :: r => x ++ sep ++ join sep r
  end.

(** An optional parameter with a default value: the default is taken only
    when the argument is left out ([undefined]); an explicit falsy value
    ([null]) stays as it is. *)
Inductive arg (A : Type) : Type :=
| Omitted : arg A
| Null : arg A
| Passed : A -> arg A.
Arguments Omitted {A}.
Arguments Null {A}.
Arguments Passed {A} _.

(** The value a parameter [p = dflt] is bound to; [None] is the falsy value. *)
Definition default_param {A : Type} (a : arg A) (dflt : A) : option A :=
  match a with
  | Omitted => Some dflt
  | Null => None
  | Passed x => Some x
  end.

(** Passing a bound value on as an explicit argument. *)
Definition pass {A : Type} (o : option A) : arg A :=
  match o with
  | Some x => Passed x
  | None => Null
  end.

(** [Array.prototype.sort(cmp)]: a stable sort; [x] goes before [y] when
    [cmp x y <= 0] and [x] came first. *)
Section Sort.
Context {A : Type} (cmp : A -> A -> Z).

Fixpoint insert (x : A) (l : list A) : list A :=
  match l with
  | [] => [x]
  | y :: r => if cmp x y <=? 0 then x :: y :: r else y :: insert x r
  end.

Fixpoint sort (l : list A) : list A :=
  match l with
  | [] => []
  | x :: r => insert x (sort r)
  end.
End Sort.

End JS.

(** ** The scorer's interface ([./filter]) *)

(** A matched character range [start, end) of a candidate string. *)
Record IMatch : Type := mkMatch { m_start : Z; m_end : Z }.

(** Modelled from the spec: the type [FuzzyScore] of [./filter], which the
    code imports and never inspects beyond [scores[0]].  The specification
    gives the scorer's result as a score together with the ordered list of
    matched ranges. *)
Record FuzzyScore : Type := mkScore { fs_score : Z; fs_ranges : list IMatch }.

(** Modelled from the spec: [createMatches] of [./filter], which turns a
    scorer result into its matched ranges, left to right. *)
Definition createMatches (scores : FuzzyScore) : list IMatch :=
  fs_ranges scores.

(** The type of [fuzzyScore(pattern, patternLow, patternStart, word,
    wordLow, wordStart, firstMatchCanBeWeak)]. *)
Definition Scorer : Type :=
  string -> string -> Z -> string -> string -> Z -> bool -> option FuzzyScore.

(** ** Data model *)

(** [Number.NEGATIVE_INFINITY] or an integer. *)
Inductive number : Type :=
| NEGATIVE_INFINITY : number
| Int : Z -> number.

(** [a > b] on numbers. *)
Definition gt (a b : number) : bool :=
  match a, b with
  | NEGATIVE_INFINITY, _ => false
  | Int _, NEGATIVE_INFINITY => true
  | Int x, Int y => x >? y
  end.

(** [interface ScorableTextItem]; an absent optional field is [None]. *)
Record ScorableTextItem : Type := mkItem {
  score : option Z;
  strings : list string;
  decoratedStrings : option (list (list string))
}.

(** An object of the caller's type [T extends ScorableTextItem]: the three
    fields of the interface and whatever else [T] holds. *)
Record Obj (E : Type) : Type := mkObj {
  fields : ScorableTextItem;
  rest : E
}.
Arguments mkObj {E} _ _.
Arguments fields {E} _.
Arguments rest {E} _.

(** A reference to an object. *)
Definition loc : Type := nat.

(** The store: every reference denotes an object. *)
Definition heap (E : Type) : Type := loc -> Obj E.

Definition update {E : Type} (h : heap E) (l : loc) (o : Obj E) : heap E :=
  fun l' => if Nat.eqb l' l then o else h l'.

(** [type MatchDecorator = (word, scores?) => string[]], as a function that
    returns its fragments and leaves the scores it is handed as they are;
    the decorators [createMatchDecorator] builds are of this kind.  A
    decorator a caller writes may also throw, or write to the scores array
    before the loop reads its first element: [Effects.Decorator] below
    covers those. *)
Definition MatchDecorator : Type := string -> option FuzzyScore -> list string.

(** ** The decorator *)

(** One turn of the loop over [matches]: the state is [(pos, actualWord)]. *)
Definition decorate_step (word left right : string)
  (st : Z * string) (m : IMatch) : Z * string :=
  let '(pos, actualWord) := st in
  (m_end m,
   actualWord ++
     (JS.substring word pos (m_start m) ++ left ++
      JS.substring word (m_start m) (m_end m) ++ right)).

(** The decorated text before it is split. *)
Definition wrapMatches (word left right : string) (matches : list IMatch)
  : string :=
  let '(pos, actualWord) :=
    fold_left (decorate_step word left right) matches (0, EmptyString) in
  actualWord ++ JS.substring_from word pos.

(** [_decorateMatch]; the closing loop copies the fragments, one by one,
    into the array that is returned. *)
Definition _decorateMatch (word : string) (surroundWith : string * string)
  (scores : option FuzzyScore) : list string :=
  match scores with
  | None => [word]
  | Some sc =>
      let matches := createMatches sc in
      let left := fst surroundWith in
      let right := snd surroundWith in
      JS.split "::" (wrapMatches word left right matches)
  end.

Definition createMatchDecorator (left right : string) : MatchDecorator :=
  fun word scores => _decorateMatch word (left, right) scores.

(** ** The aggregator *)

Section Matcher.

(** [fuzzyScore] of [./filter]. *)
Variable fuzzyScore : Scorer.

(** The scorer as the loop calls it on one alias. *)
Definition scoreWord (filter word : string) : option FuzzyScore :=
  fuzzyScore filter (JS.toLowerCase filter) 0
             word (JS.toLowerCase word) 0 true.

(** [scores[0] === 0 ? 1 : scores[0]] *)
Definition remap (s : Z) : Z := if s =? 0 then 1 else s.

(** One turn of the loop over [item.strings]: the state is
    [(topScore, decoratedStrings)]. *)
Definition match_step (filter : string) (decorate : option MatchDecorator)
  (st : number * list (list string)) (word : string)
  : number * list (list string) :=
  let '(topScore, decoratedStrings) := st in
  let scores := scoreWord filter word in
  let decoratedStrings :=
    match decorate with
    | Some d => (decoratedStrings ++ [d word scores])%list
    | None => decoratedStrings
    end in
  match scores with
  | None => (topScore, decoratedStrings)
  | Some sc =>
      let score := remap (fs_score sc) in
      if gt (Int score) topScore
      then (Int score, decoratedStrings)
      else (topScore, decoratedStrings)
  end.

Definition fuzzySequentialMatch (filter : string) (item : ScorableTextItem)
  (decorate : JS.arg MatchDecorator) : option ScorableTextItem :=
  let decorate := JS.default_param decorate (createMatchDecorator "[" "]") in
  let '(topScore, decoratedStrings) :=
    fold_left (match_step filter decorate) (strings item)
              (NEGATIVE_INFINITY, []) in
  match topScore with
  | NEGATIVE_INFINITY => None
  | Int top =>
      Some {| score := Some top;
              strings := strings item;
              decoratedStrings := Some decoratedStrings |}
  end.

(** ** The filter-and-rank driver *)

(** [match?.score] and [match?.decoratedStrings] *)
Definition opt_score (m : option ScorableTextItem) : option Z :=
  match m with Some r => score r | None => None end.

Definition opt_decorated (m : option ScorableTextItem)
  : option (list (list string)) :=
  match m with Some r => decoratedStrings r | None => None end.

(** The two assignments of the [map] callback, on one object. *)
Definition annotate {E : Type} (filter : string)
  (decorate : JS.arg MatchDecorator) (o : Obj E) : Obj E :=
  let m := fuzzySequentialMatch filter (fields o) decorate in
  {| fields := {| score := opt_score m;
                  strings := strings (fields o);
                  decoratedStrings := opt_decorated m |};
     rest := rest o |}.

(** The [map] callback: the state is the store and the array built so far. *)
Definition map_step {E : Type} (filter : string)
  (decorate : JS.arg MatchDecorator)
  (st : heap E * list loc) (item : loc) : heap E * list loc :=
  let '(h, out) := st in
  (update h item (annotate filter decorate (h item)), (out ++ [item])%list).

(** [{ score: scoreA = 0 }]: the destructuring default. *)
Definition score_or_0 (it : ScorableTextItem) : Z :=
  match score it with Some s => s | None => 0 end.

(** The comparator of the [sort]. *)
Definition compareScore {E : Type} (h : heap E) (a b : loc) : Z :=
  let scoreA := score_or_0 (fields (h a)) in
  let scoreB := score_or_0 (fields (h b)) in
  if scoreA >? scoreB then -1 else if scoreA <? scoreB then 1 else 0.

Definition is_defined {A : Type} (o : option A) : bool :=
  match o with Some _ => true | None => false end.

Definition fuzzyFilterSort {E : Type} (filter : string) (items : list loc)
  (decorate : JS.arg MatchDecorator) (h : heap E) : heap E * list loc :=
  let decorate :=
    JS.pass (JS.default_param decorate (createMatchDecorator "[" "]")) in
  let '(h1, mapped) :=
    fold_left (map_step filter decorate) items (h, []) in
  let filtered :=
    List.filter (fun item => is_defined (score (fields (h1 item)))) mapped in
  (h1, JS.sort (compareScore h1) filtered).

End Matcher.

(** ** What the loops compute *)

(** The running maximum of the aggregator: [if (score > topScore) topScore = score]. *)
Definition better (topScore : number) (s : Z) : number :=
  if gt (Int s) topScore then Int s else topScore.

(** [m] is the greatest element of [l]. *)
Definition is_max (m : Z) (l : list Z) : Prop :=
  In m l /\ forall x, In x l -> x <= m.

Section Aggregated.

Variable fuzzyScore : Scorer.

(** The raw scores of the aliases that match, in alias order. *)
Definition rawScores (filter : string) (ws : list string) : list Z :=
  flat_map (fun w => match scoreWord fuzzyScore filter w with
                     | Some sc => [fs_score sc]
                     | None => []
                     end) ws.

(** An alias matches when the scorer returns a result for it. *)
Definition matches (filter word : string) : Prop :=
  scoreWord fuzzyScore filter word <> None.

(** One decorated group per alias, matching or not, in alias order. *)
Definition decorations (d : MatchDecorator) (filter : string)
  (ws : list string) : list (list string) :=
  map (fun w => d w (scoreWord fuzzyScore filter w)) ws.

Definition decorations_opt (d : option MatchDecorator) (filter : string)
  (ws : list string) : list (list string) :=
  match d with
  | Some d => decorations d filter ws
  | None => []
  end.

(** The store after the [map]: every listed object annotated once. *)
Definition annotate_all {E : Type} (filter : string)
  (decorate : JS.arg MatchDecorator) (items : list loc) (h : heap E)
  : heap E :=
  fun l => if in_dec Nat.eq_dec l items
           then annotate fuzzyScore filter decorate (h l)
           else h l.

End Aggregated.

(** A scorer given by a table from candidate strings to results; a string
    that is not in the table does not match.  Used in the worked examples. *)
Fixpoint assoc (w : string) (tbl : list (string * FuzzyScore))
  : option FuzzyScore :=
  match tbl with
  | [] => None
  | (k, v) :: r => if String.eqb k w then Some v else assoc w r
  end.

Definition tableScorer (tbl : list (string * FuzzyScore)) : Scorer :=
  fun _ _ _ word _ _ _ => assoc word tbl.

(** An object holding one alias and nothing else. *)
Definition named (s : string) : Obj unit :=
  {| fields := {| score := None; strings := [s]; decoratedStrings := None |};
     rest := tt |}.

(** Four items whose single aliases score 5, -2, 9 and 0, and a fifth
    one that does not match. *)
Definition sampleScorer : Scorer :=
  tableScorer
    [("lamp", {| fs_score := 5; fs_ranges := [mkMatch 0 2] |});
     ("fan", {| fs_score := -2; fs_ranges := [mkMatch 1 2] |});
     ("plug", {| fs_score := 9; fs_ranges := [mkMatch 0 4] |});
     ("door", {| fs_score := 0; fs_ranges := [] |})].

Definition sampleHeap : heap unit :=
  fun l =>
    match l with
    | 0%nat => named "lamp"
    | 1%nat => named "fan"
    | 2%nat => named "plug"
    | 3%nat => named "door"
    | _ => named "oven"
    end.

(** An item with three aliases: two match (scores -2 and 0), one does not. *)
Definition threeAliases : ScorableTextItem :=
  {| score := None;
     strings := ["fan"; "door"; "oven"];
     decoratedStrings := None |}.

(** An item scored by an earlier pass whose alias no longer matches, next
    to one that does. *)
Definition staleHeap : heap unit :=
  fun l =>
    match l with
    | 0%nat =>
        {| fields := {| score := Some 7;
                        strings := ["oven"];
                        decoratedStrings := Some [["[ov]en"]] |};
           rest := tt |}
    | _ => named "lamp"
    end.

(** Items with no alias at all. *)
Definition bareHeap : heap unit :=
  fun _ =>
    {| fields := {| score := None; strings := []; decoratedStrings := None |};
       rest := tt |}.

(** Descending by [key]: [a] may stand before [b]. *)
Definition descending {A : Type} (key : A -> Z) (a b : A) : Prop :=
  key b <= key a.

(** ** Vocabulary for the decorator's properties *)

(** The decorated text from offset [pos] on: the loop of [_decorateMatch]
    read as a recursion over the remaining matches. *)
Fixpoint wrap_from (word left right : string) (pos : Z) (ms : list IMatch)
  : string :=
  match ms with
  | [] => JS.substring_from word pos
  | m :: ms' =>
      JS.substring word pos (m_start m) ++ left ++
      JS.substring word (m_start m) (m_end m) ++ right ++
      wrap_from word left right (m_end m) ms'
  end.

(** The ranges lie in the word, from [pos] on, in order and without
    overlap: what the scorer guarantees of its result. *)
Fixpoint ranges_ok (word : string) (pos : Z) (ms : list IMatch) : Prop :=
  match ms with
  | [] => 0 <= pos <= Z.of_nat (String.length word)
  | m :: ms' =>
      (0 <= pos <= m_start m) /\ (m_start m <= m_end m) /\
      ranges_ok word (m_end m) ms'
  end.

Definition starts_colon (s : string) : bool :=
  match s with
  | String c _ => Ascii.eqb c ":"
  | EmptyString => false
  end.

Fixpoint ends_colon (s : string) : bool :=
  match s with
  | EmptyString => false
  | String c EmptyString => Ascii.eqb c ":"
  | String _ r => ends_colon r
  end.

Fixpoint colon_free (s : string) : bool :=
  match s with
  | EmptyString => true
  | String c r => negb (Ascii.eqb c ":") && colon_free r
  end.

(** Offset [i] of [word] lies between two adjacent colons. *)
Definition cuts_separator (word : string) (i : Z) : bool :=
  ends_colon (JS.substring word 0 i) &&
  starts_colon (JS.substring_from word i).

(** No range starts or ends between two adjacent colons. *)
Definition separators_uncut (word : string) (ms : list IMatch) : Prop :=
  forall m, In m ms ->
    cuts_separator word (m_start m) = false /\
    cuts_separator word (m_end m) = false.

(** A character of one of the two markers. *)
Definition marker_char (left right : string) (c : ascii) : Prop :=
  In c (list_ascii_of_string left) \/ In c (list_ascii_of_string right).

(** [inserted P s s']: [s'] is [s] with characters satisfying [P] added,
    every character of [s] kept once and in order. *)
Inductive inserted (P : ascii -> Prop) : string -> string -> Prop :=
| ins_nil : inserted P EmptyString EmptyString
| ins_keep c s s' :
    inserted P s s' -> inserted P (String c s) (String c s')
| ins_add c s s' :
    P c -> inserted P s s' -> inserted P s (String c s').

(** [woven P s s']: as [inserted], with no character added inside an
    occurrence of the separator that [split] finds in [s]. *)
Inductive woven (P : ascii -> Prop) : string -> string -> Prop :=
| wv_nil : woven P EmptyString EmptyString
| wv_sep s s' :
    woven P s s' -> woven P ("::" ++ s) ("::" ++ s')
| wv_char c s s' :
    String.prefix "::" (String c s) = false ->
    woven P s s' -> woven P (String c s) (String c s')
| wv_add c s s' :
    P c -> woven P s s' -> woven P s (String c s').

(** Putting [cur] in front of the first fragment. *)
Definition prepend (cur : string) (l : list string) : list string :=
  match l with
  | [] => []
  | x :: r => (cur ++ x) :: r
  end.

(** [s] holds the separator somewhere. *)
Fixpoint contains_sep (s : string) : bool :=
  match s with
  | EmptyString => false
  | String _ r => String.prefix "::" s || contains_sep r
  end.

(** A range with both offsets brought into the word, as [substring] reads
    them. *)
Definition clampMatch (word : string) (m : IMatch) : IMatch :=
  {| m_start := Z.of_nat (JS.clamp word (m_start m));
     m_end := Z.of_nat (JS.clamp word (m_end m)) |}.

(** ** The service-action editor ([ha-automation-action-service]) *)

Module HaServiceAction.

(** The values an action is made of: the data of a YAML or JSON
    configuration.  Numbers are integers here. *)
#[local] Unset Elimination Schemes.
Inductive value : Type :=
| Undefined : value
| Null : value
| Bool : bool -> value
| Num : Z -> value
| Str : string -> value
| Arr : list value -> value
| Object : list (string * value) -> value.
#[local] Set Elimination Schemes.

(** The condition of an [if]. *)
Definition truthy (v : value) : bool :=
  match v with
  | Undefined | Null => false
  | Bool b => b
  | Num n => negb (n =? 0)
  | Str s => negb (String.eqb s EmptyString)
  | Arr _ | Object _ => true
  end.

(** The own property [k] of an object, by its list of properties. *)
Fixpoint lookup (k : string) (props : list (string * value)) : option value :=
  match props with
  | [] => None
  | (k', v) :: r => if String.eqb k' k then Some v else lookup k r
  end.

(** [{ ...props, k: v }]: the property keeps its place when it is there
    already, and comes last otherwise. *)
Fixpoint set (k : string) (v : value) (props : list (string * value))
  : list (string * value) :=
  match props with
  | [] => [(k, v)]
  | (k', v') :: r =>
      if String.eqb k' k then (k, v) :: r else (k', v') :: set k v r
  end.

(** [delete o.k] *)
Fixpoint delete (k : string) (props : list (string * value))
  : list (string * value) :=
  match props with
  | [] => []
  | (k', v') :: r =>
      if String.eqb k' k then delete k r else (k', v') :: delete k r
  end.

(** The decimal name of an index. *)
Definition index_key (i : nat) : string :=
  NilEmpty.string_of_uint (Nat.to_uint i).

Fixpoint indexed (i : nat) (l : list value) : list (string * value) :=
  match l with
  | [] => []
  | v :: r => (index_key i, v) :: indexed (S i) r
  end.

Fixpoint characters (s : string) : list value :=
  match s with
  | EmptyString => []
  | String c r => Str (String c EmptyString) :: characters r
  end.

(** What [{ ...v }] copies: the own enumerable properties of [v]. *)
Definition own_props (v : value) : list (string * value) :=
  match v with
  | Object props => props
  | Arr l => indexed 0 l
  | Str s => indexed 0 (characters s)
  | Undefined | Null | Bool _ | Num _ => []
  end.

(** [undefined] and [null]: reading a property of them is a [TypeError]. *)
Definition nullish (v : value) : bool :=
  match v with
  | Undefined | Null => true
  | _ => false
  end.

(** [v.k] on a value that is not nullish, for a key that is neither an index
    nor a built-in property, as [entity_id] and [data] are. *)
Definition prop (v : value) (k : string) : value :=
  match v with
  | Object props =>
      match lookup k props with
      | Some x => x
      | None => Undefined
      end
  | _ => Undefined
  end.

(** What an event carries: the error [assert] threw, or [Error(message)]. *)
Inductive detail (Err : Type) : Type :=
| Thrown : Err -> detail Err
| ErrorOf : string -> detail Err.
Arguments Thrown {Err} _.
Arguments ErrorOf {Err} _.

Record Event (Err : Type) : Type := mkEvent {
  ev_type : string;
  ev_detail : detail Err
}.
Arguments mkEvent {Err} _ _.
Arguments ev_type {Err} _.
Arguments ev_detail {Err} _.

(** The element: the [action] property, the [_action] state and the events
    it has fired so far. *)
Record Element (Err : Type) : Type := mkElement {
  action : value;
  _action : value;
  fired : list (Event Err)
}.
Arguments mkElement {Err} _ _ _.
Arguments action {Err} _.
Arguments _action {Err} _.
Arguments fired {Err} _.

(** [updated] returns, or a [TypeError] escapes from it. *)
Inductive outcome (Err : Type) : Type :=
| Returns : Element Err -> outcome Err
| TypeError : outcome Err.
Arguments Returns {Err} _.
Arguments TypeError {Err}.

Section Updated.

(** What [assert] throws. *)
Variable Err : Type.

(** [assert(value, actionStruct)] of superstruct, with [actionStruct] and
    the [EntityIdOrAll] it uses: [Some error] when it throws. *)
Variable assertStruct : value -> option Err.

(** [hasTemplate] of [common/string/has-template]. *)
Variable hasTemplate : value -> bool.

(** [this.hass.localize] *)
Variable localize : string -> string.

(** [fireEvent(this, type, detail)] *)
Definition fireEvent (this : Element Err) (type : string) (d : detail Err)
  : Element Err :=
  {| action := action this;
     _action := _action this;
     fired := (fired this ++ [mkEvent type d])%list |}.

(** The object literal of the first branch, after its [entity_id] has been
    deleted. *)
Definition moved (act entity_id data : value) : value :=
  let inner := Object (set "entity_id" entity_id (own_props data)) in
  Object (delete "entity_id" (set "data" inner (own_props act))).

(** [updated(changedProperties)]; [changed] lists the keys of
    [changedProperties]. *)
Definition updated (changed : list string) (this : Element Err)
  : outcome Err :=
  if negb (existsb (String.eqb "action") changed) then Returns this
  else
    match assertStruct (action this) with
    | Some error => Returns (fireEvent this "ui-mode-not-available" (Thrown error))
    | None =>
        if truthy (action this) && hasTemplate (action this)
        then
          Returns
            (fireEvent this "ui-mode-not-available"
               (ErrorOf
                  (localize "ui.errors.config.no_template_editor_support")))
        else
          if nullish (action this) then TypeError
          else if truthy (prop (action this) "entity_id")
          then
            Returns
              {| action := action this;
                 _action :=
                   moved (action this)
                         (prop (action this) "entity_id")
                         (prop (action this) "data");
                 fired := fired this |}
          else
            Returns
              {| action := action this;
                 _action := action this;
                 fired := fired this |}
    end.

End Updated.

(** [defaultConfig] *)
Definition defaultConfig : value :=
  Object [("service", Str EmptyString); ("data", Object [])].

End HaServiceAction.

(** A check that lets objects through and nothing else, and an action that
    names its entity at the top level; for the worked examples. *)
Definition onlyObjects (v : HaServiceAction.value) : option string :=
  match v with
  | HaServiceAction.Object _ => None
  | _ => Some "Expected an object"
  end.

Definition turnOnKitchen : HaServiceAction.value :=
  HaServiceAction.Object
    [("service", HaServiceAction.Str "light.turn_on");
     ("entity_id", HaServiceAction.Str "light.kitchen");
     ("data",
      HaServiceAction.Object [("brightness", HaServiceAction.Num 255)])].

(** The same action with the entity inside [data]. *)
Definition kitchenInData : HaServiceAction.value :=
  HaServiceAction.Object
    [("service", HaServiceAction.Str "light.turn_on");
     ("data",
      HaServiceAction.Object
        [("brightness", HaServiceAction.Num 255);
         ("entity_id", HaServiceAction.Str "light.kitchen")])].

Definition freshElement (act : HaServiceAction.value)
  : HaServiceAction.Element string :=
  {| HaServiceAction.action := act;
     HaServiceAction._action := HaServiceAction.Undefined;
     HaServiceAction.fired := [] |}.

(** The scorer of the embedding above, under a name that stays visible
    where [Scorer] is given a second meaning. *)
Definition PureScorer : Type := Scorer.

(** ** The same code with the effects of what it calls *)

(** The embedding above takes the scorer and the decorator as functions
    that return, and every assignment to an item as one that succeeds.
    Here a call may throw, the decorator may write to the scores array it
    is handed (it gets that array before its first element is read), and a
    field of an item may refuse to be written. *)
Module Effects.

(** What is thrown: a value of a callback's own, or the [TypeError] of an
    assignment to a property that cannot be written. *)
Inductive thrown (X : Type) : Type :=
| Raised : X -> thrown X
| TypeError : thrown X.
Arguments Raised {X} _.
Arguments TypeError {X}.

Inductive outcome (X A : Type) : Type :=
| Returns : A -> outcome X A
| Throws : thrown X -> outcome X A.
Arguments Returns {X A} _.
Arguments Throws {X A} _.

Definition bind {X A B : Type} (c : outcome X A) (k : A -> outcome X B)
  : outcome X B :=
  match c with
  | Returns a => k a
  | Throws x => Throws x
  end.

(** [fuzzyScore] as a call that may throw. *)
Definition Scorer (X : Type) : Type :=
  string -> string -> Z -> string -> string -> Z -> bool ->
  outcome X (option FuzzyScore).

(** A decorator: [call word scores] is what it returns or throws, and
    [writes word sc] is the scores array after a call that returned, when
    the array was [sc] before. *)
Record Decorator (X : Type) : Type := mkDecorator {
  call : string -> option FuzzyScore -> outcome X (list string);
  writes : string -> FuzzyScore -> FuzzyScore
}.
Arguments mkDecorator {X} _ _.
Arguments call {X} _ _ _.
Arguments writes {X} _ _ _.

(** A decorator of the embedding above: it returns and writes nothing. *)
Definition pure {X : Type} (d : MatchDecorator) : Decorator X :=
  {| call := fun word scores => Returns (d word scores);
     writes := fun _ sc => sc |}.

(** An argument of the embedding above, as an argument here. *)
Definition lift {X : Type} (decorate : JS.arg MatchDecorator)
  : JS.arg (Decorator X) :=
  match decorate with
  | JS.Omitted => JS.Omitted
  | JS.Null => JS.Null
  | JS.Passed d => JS.Passed (pure d)
  end.

(** The two fields the driver assigns. *)
Inductive field : Type :=
| score_field : field
| decoratedStrings_field : field.

Section EffectfulMatcher.

(** What a callback may throw. *)
Variable X : Type.

Variable fuzzyScore : Scorer X.

Definition scoreWord (filter word : string) : outcome X (option FuzzyScore) :=
  fuzzyScore filter (JS.toLowerCase filter) 0
             word (JS.toLowerCase word) 0 true.

(** [if (decorate) decoratedStrings.push(decorate(word, scores))]: the
    groups and the scores array afterwards. *)
Definition decorate_word (decorate : option (Decorator X))
  (decoratedStrings : list (list string)) (word : string)
  (scores : option FuzzyScore)
  : outcome X (list (list string) * option FuzzyScore) :=
  match decorate with
  | Some d =>
      bind (call d word scores) (fun fragments =>
        Returns ((decoratedStrings ++ [fragments])%list,
                 option_map (writes d word) scores))
  | None => Returns (decoratedStrings, scores)
  end.

(** One turn of the loop over [item.strings]. *)
Definition match_step (filter : string) (decorate : option (Decorator X))
  (st : number * list (list string)) (word : string)
  : outcome X (number * list (list string)) :=
  let '(topScore, decoratedStrings) := st in
  bind (scoreWord filter word) (fun scores =>
  bind (decorate_word decorate decoratedStrings word scores) (fun r =>
    let '(decoratedStrings, scores) := r in
    match scores with
    | None => Returns (topScore, decoratedStrings)
    | Some sc =>
        let score := remap (fs_score sc) in
        if gt (Int score) topScore
        then Returns (Int score, decoratedStrings)
        else Returns (topScore, decoratedStrings)
    end)).

(** The loop: a throw ends it. *)
Fixpoint match_loop (filter : string) (decorate : option (Decorator X))
  (words : list string) (st : number * list (list string))
  : outcome X (number * list (list string)) :=
  match words with
  | [] => Returns st
  | word :: rest =>
      bind (match_step filter decorate st word)
           (match_loop filter decorate rest)
  end.

Definition fuzzySequentialMatch (filter : string) (item : ScorableTextItem)
  (decorate : JS.arg (Decorator X)) : outcome X (option ScorableTextItem) :=
  let decorate :=
    JS.default_param decorate (pure (createMatchDecorator "[" "]")) in
  bind (match_loop filter decorate (strings item) (NEGATIVE_INFINITY, []))
       (fun st =>
          let '(topScore, decoratedStrings) := st in
          Returns
            match topScore with
            | NEGATIVE_INFINITY => None
            | Int top =>
                Some {| score := Some top;
                        strings := strings item;
                        decoratedStrings := Some decoratedStrings |}
            end).

(** A call made for [item] throws [x]: the scorer on one of its aliases,
    or a decorator the caller passed, on an alias the scorer returned
    for. *)
Definition callee_throws (filter : string) (decorate : JS.arg (Decorator X))
  (item : ScorableTextItem) (x : thrown X) : Prop :=
  exists word,
    In word (strings item) /\
    (scoreWord filter word = Throws x \/
     exists d scores,
       decorate = JS.Passed d /\
       scoreWord filter word = Returns scores /\
       call d word scores = Throws x).

(** Which fields of which objects can be written. *)
Variable writable : loc -> field -> bool.

(** [item.score = v] *)
Definition set_score {E : Type} (v : option Z) (o : Obj E) : Obj E :=
  {| fields := {| score := v;
                  strings := strings (fields o);
                  decoratedStrings := decoratedStrings (fields o) |};
     rest := rest o |}.

(** [item.decoratedStrings = v] *)
Definition set_decorated {E : Type} (v : option (list (list string)))
  (o : Obj E) : Obj E :=
  {| fields := {| score := score (fields o);
                  strings := strings (fields o);
                  decoratedStrings := v |};
     rest := rest o |}.

(** The [map]: the store is returned as the loop leaves it, also when a
    callback or an assignment throws half-way. *)
Fixpoint map_loop {E : Type} (filter : string)
  (decorate : JS.arg (Decorator X)) (items : list loc)
  (h : heap E) (out : list loc) : heap E * outcome X (list loc) :=
  match items with
  | [] => (h, Returns out)
  | item :: rest =>
      match fuzzySequentialMatch filter (fields (h item)) decorate with
      | Throws x => (h, Throws x)
      | Returns m =>
          if negb (writable item score_field) then (h, Throws TypeError)
          else
            let h1 := update h item (set_score (opt_score m) (h item)) in
            if negb (writable item decoratedStrings_field)
            then (h1, Throws TypeError)
            else
              let h2 :=
                update h1 item (set_decorated (opt_decorated m) (h1 item)) in
              map_loop filter decorate rest h2 (out ++ [item])%list
      end
  end.

Definition fuzzyFilterSort {E : Type} (filter : string) (items : list loc)
  (decorate : JS.arg (Decorator X)) (h : heap E)
  : heap E * outcome X (list loc) :=
  let decorate :=
    JS.pass
      (JS.default_param decorate (pure (createMatchDecorator "[" "]"))) in
  let '(h1, mapped) := map_loop filter decorate items h [] in
  match mapped with
  | Throws x => (h1, Throws x)
  | Returns mapped =>
      let filtered :=
        List.filter
          (fun item => is_defined (score (fields (h1 item)))) mapped in
      (h1, Returns (JS.sort (compareScore h1) filtered))
  end.

End EffectfulMatcher.

(** A scorer of the embedding above: it returns. *)
Definition returning {X : Type} (fuzzyScore : PureScorer) : Scorer X :=
  fun a b c d e f g => Returns (fuzzyScore a b c d e f g).

(** The decorator an argument stands for returns on every input. *)
Definition returns_normally {X : Type} (decorate : JS.arg (Decorator X))
  : Prop :=
  match decorate with
  | JS.Passed d => forall word scores, exists fragments,
                     call d word scores = Returns fragments
  | JS.Omitted | JS.Null => True
  end.

(** The decorator an argument stands for leaves the scores as they are. *)
Definition writes_nothing {X : Type} (decorate : JS.arg (Decorator X))
  : Prop :=
  match decorate with
  | JS.Passed d => forall word sc, writes d word sc = sc
  | JS.Omitted | JS.Null => True
  end.

(** The scorer without its throws: a call that throws counts as no
    match. *)
Definition forced {X : Type} (fuzzyScore : Scorer X) : PureScorer :=
  fun a b c d e f g =>
    match fuzzyScore a b c d e f g with
    | Returns r => r
    | Throws _ => None
    end.

(** A decorator that throws whatever it is given, and one that rewrites
    every score it sees to 100; for the worked examples. *)
Definition throwing : Decorator string :=
  {| call := fun _ _ => Throws (Raised "no decoration");
     writes := fun _ sc => sc |}.

Definition inflating : Decorator string :=
  {| call := fun word _ => Returns [word];
     writes := fun _ sc => {| fs_score := 100; fs_ranges := fs_ranges sc |} |}.

End Effects.

(** A store with one named item and items without alias. *)
Definition lampAndBare : heap unit :=
  fun l =>
    match l with
    | 0%nat => named "lamp"
    | _ => bareHeap l
    end.

(** * Properties *)

(** ** The running maximum *)

Lemma better_Int (a s : Z) : better (Int a) s = Int (Z.max a s).
Proof.
  unfold better, gt.
  destruct (Z.gtb_spec s a) as [H | H].
  - now rewrite Z.max_r by lia.
  - now rewrite Z.max_l by lia.
Qed.

Lemma fold_better_Int (l : list Z) (a : Z) :
  fold_left better l (Int a) = Int (fold_left Z.max l a).
Proof.
  revert a; induction l as [| x l IH]; intros a; simpl.
  - reflexivity.
  - now rewrite better_Int, IH.
Qed.

Lemma fold_max_ge (l : list Z) (a : Z) : a <= fold_left Z.max l a.
Proof.
  revert a; induction l as [| x l IH]; intros a; simpl.
  - lia.
  - specialize (IH (Z.max a x)); lia.
Qed.

Lemma fold_max_upper (l : list Z) (a x : Z) :
  In x l -> x <= fold_left Z.max l a.
Proof.
  revert a; induction l as [| y l IH]; intros a; simpl.
  - contradiction.
  - intros [-> | H].
    + pose proof (fold_max_ge l (Z.max a x)); lia.
    + now apply IH.
Qed.

Lemma fold_max_in (l : list Z) (a : Z) :
  fold_left Z.max l a = a \/ In (fold_left Z.max l a) l.
Proof.
  revert a; induction l as [| y l IH]; intros a; simpl.
  - now left.
  - destruct (IH (Z.max a y)) as [H | H].
    + rewrite H. destruct (Z.max_spec a y) as [[_ ->] | [_ ->]]; auto.
    + auto.
Qed.

Lemma fold_better_nil_iff (l : list Z) :
  fold_left better l NEGATIVE_INFINITY = NEGATIVE_INFINITY <-> l = [].
Proof.
  destruct l as [| x l]; simpl.
  - tauto.
  - unfold better at 2; simpl. rewrite fold_better_Int.
    split; discriminate.
Qed.

Lemma fold_better_max (l : list Z) (m : Z) :
  fold_left better l NEGATIVE_INFINITY = Int m <-> is_max m l.
Proof.
  destruct l as [| x l]; simpl.
  - split; [discriminate | intros [[] _]].
  - unfold better at 2; simpl. rewrite fold_better_Int.
    split.
    + intros H; injection H as <-. split.
      * destruct (fold_max_in l x) as [-> | H]; [now left | now right].
      * intros y [<- | Hy]; [apply fold_max_ge | now apply fold_max_upper].
    + intros [Hin Hmax]. f_equal.
      apply Z.le_antisymm.
      * destruct (fold_max_in l x) as [-> | H].
        -- apply Hmax; now left.
        -- apply Hmax; now right.
      * destruct Hin as [<- | Hin];
          [apply fold_max_ge | now apply fold_max_upper].
Qed.

Lemma is_max_unique (l : list Z) (m m' : Z) :
  is_max m l -> is_max m' l -> m = m'.
Proof.
  intros [Hin Hm] [Hin' Hm']. apply Z.le_antisymm; auto.
Qed.

(** Remapping commutes with taking the maximum: scores are integers, so
    nothing lies strictly between 0 and 1. *)
Lemma remap_monotone (a b : Z) : a <= b -> remap a <= remap b.
Proof.
  unfold remap. destruct (Z.eqb_spec a 0), (Z.eqb_spec b 0); lia.
Qed.

Lemma is_max_remap (m : Z) (l : list Z) :
  is_max m l -> is_max (remap m) (map remap l).
Proof.
  intros [Hin Hm]. split.
  - now apply in_map.
  - intros x Hx. apply in_map_iff in Hx as (y & <- & Hy).
    apply remap_monotone; auto.
Qed.

(** ** The aggregator *)

Section AggregatorFacts.

Variable fuzzyScore : Scorer.

Lemma match_step_better filter d top ds word :
  match_step fuzzyScore filter d (top, ds) word =
  (match scoreWord fuzzyScore filter word with
   | Some sc => better top (remap (fs_score sc))
   | None => top
   end,
   (ds ++ decorations_opt fuzzyScore d filter [word])%list).
Proof.
  unfold match_step, better, decorations_opt, decorations.
  destruct d as [d |]; simpl; rewrite ?app_nil_r;
    destruct (scoreWord fuzzyScore filter word) as [sc |]; try reflexivity;
    destruct top as [| y]; try reflexivity;
    destruct (remap (fs_score sc) >? y); reflexivity.
Qed.

Lemma decorations_opt_cons d filter w ws :
  decorations_opt fuzzyScore d filter (w :: ws) =
  (decorations_opt fuzzyScore d filter [w] ++
   decorations_opt fuzzyScore d filter ws)%list.
Proof. destruct d; reflexivity. Qed.

(** The loop over the aliases, in closed form. *)
Lemma fold_match_step filter d ws top ds :
  fold_left (match_step fuzzyScore filter d) ws (top, ds) =
  (fold_left better (map remap (rawScores fuzzyScore filter ws)) top,
   (ds ++ decorations_opt fuzzyScore d filter ws)%list).
Proof.
  revert top ds; induction ws as [| w ws IH]; intros top ds.
  - simpl. destruct d; simpl; now rewrite app_nil_r.
  - cbn [fold_left]. rewrite match_step_better, IH.
    rewrite (decorations_opt_cons d filter w ws), app_assoc.
    f_equal. unfold rawScores. cbn [flat_map].
    fold (rawScores fuzzyScore filter ws).
    destruct (scoreWord fuzzyScore filter w) as [sc |]; reflexivity.
Qed.

(** [fuzzySequentialMatch] in closed form. *)
Lemma fuzzySequentialMatch_eq filter item decorate :
  fuzzySequentialMatch fuzzyScore filter item decorate =
  match fold_left better (map remap (rawScores fuzzyScore filter (strings item)))
                  NEGATIVE_INFINITY with
  | NEGATIVE_INFINITY => None
  | Int top =>
      Some {| score := Some top;
              strings := strings item;
              decoratedStrings :=
                Some (decorations_opt fuzzyScore
                        (JS.default_param decorate
                           (createMatchDecorator "[" "]"))
                        filter (strings item)) |}
  end.
Proof.
  unfold fuzzySequentialMatch.
  now rewrite fold_match_step.
Qed.

Lemma rawScores_nil_iff filter ws :
  rawScores fuzzyScore filter ws = [] <-> Forall (fun w => scoreWord fuzzyScore filter w = None) ws.
Proof.
  induction ws as [| w ws IH]; simpl.
  - split; auto.
  - destruct (scoreWord fuzzyScore filter w) as [sc |] eqn:E; simpl.
    + split; [discriminate |].
      intros H; inversion H; subst; congruence.
    + rewrite IH. split.
      * intros H; constructor; auto.
      * intros H; now inversion H.
Qed.

Lemma in_rawScores filter ws s :
  In s (rawScores fuzzyScore filter ws) <->
  exists w sc, In w ws /\ scoreWord fuzzyScore filter w = Some sc /\ fs_score sc = s.
Proof.
  unfold rawScores. rewrite in_flat_map. split.
  - intros (w & Hw & Hs). destruct (scoreWord fuzzyScore filter w) as [sc |] eqn:E.
    + destruct Hs as [<- | []]. now exists w, sc.
    + destruct Hs.
  - intros (w & sc & Hw & E & <-). exists w. rewrite E. split; simpl; auto.
Qed.

(** No alias matches exactly when the aggregator returns [undefined]. *)
Lemma fuzzySequentialMatch_None_iff filter item decorate :
  fuzzySequentialMatch fuzzyScore filter item decorate = None <->
  Forall (fun w => scoreWord fuzzyScore filter w = None) (strings item).
Proof.
  rewrite fuzzySequentialMatch_eq, <- rawScores_nil_iff.
  destruct (fold_left better _ _) as [| top] eqn:E.
  - apply fold_better_nil_iff in E.
    split; [intros _ | reflexivity].
    now destruct (rawScores fuzzyScore filter (strings item)).
  - split; [discriminate |].
    intros H. rewrite H in E. discriminate.
Qed.

(** The score the aggregator returns is the greatest remapped score. *)
Lemma fuzzySequentialMatch_Some filter item decorate r :
  fuzzySequentialMatch fuzzyScore filter item decorate = Some r ->
  exists top,
    is_max top (map remap (rawScores fuzzyScore filter (strings item))) /\
    r = {| score := Some top;
           strings := strings item;
           decoratedStrings :=
             Some (decorations_opt fuzzyScore
                     (JS.default_param decorate
                        (createMatchDecorator "[" "]"))
                     filter (strings item)) |}.
Proof.
  rewrite fuzzySequentialMatch_eq.
  destruct (fold_left better _ _) as [| top] eqn:E; [discriminate |].
  intros H; injection H as <-.
  exists top. split; [now apply fold_better_max | reflexivity].
Qed.

Lemma fuzzySequentialMatch_max filter item decorate top :
  is_max top (map remap (rawScores fuzzyScore filter (strings item))) ->
  fuzzySequentialMatch fuzzyScore filter item decorate =
  Some {| score := Some top;
          strings := strings item;
          decoratedStrings :=
            Some (decorations_opt fuzzyScore
                    (JS.default_param decorate
                       (createMatchDecorator "[" "]"))
                    filter (strings item)) |}.
Proof.
  intros H. rewrite fuzzySequentialMatch_eq.
  apply fold_better_max in H. now rewrite H.
Qed.

(** The decorator a driver passes on is the one the aggregator uses. *)
Lemma fuzzySequentialMatch_pass filter item decorate :
  fuzzySequentialMatch fuzzyScore filter item
    (JS.pass (JS.default_param decorate (createMatchDecorator "[" "]"))) =
  fuzzySequentialMatch fuzzyScore filter item decorate.
Proof.
  rewrite !fuzzySequentialMatch_eq. now destruct decorate.
Qed.

End AggregatorFacts.

(** ** The stable sort *)

Section SortFacts.

Context {A : Type} (key : A -> Z) (cmp : A -> A -> Z).

(** The comparator orders by descending key and by nothing else. *)
Hypothesis cmp_key : forall x y, cmp x y <= 0 <-> key y <= key x.

Lemma insert_perm x l : Permutation (JS.insert cmp x l) (x :: l).
Proof.
  induction l as [| y l IH]; simpl.
  - apply Permutation_refl.
  - destruct (cmp x y <=? 0).
    + apply Permutation_refl.
    + eapply perm_trans; [apply perm_skip, IH | apply perm_swap].
Qed.

Lemma sort_perm l : Permutation (JS.sort cmp l) l.
Proof.
  induction l as [| x l IH]; simpl.
  - constructor.
  - eapply perm_trans; [apply insert_perm | now apply perm_skip].
Qed.

Lemma insert_sorted x l :
  StronglySorted (descending key) l -> StronglySorted (descending key) (JS.insert cmp x l).
Proof.
  induction l as [| y l IH]; simpl; intros Hs.
  - repeat constructor.
  - inversion Hs as [| ? ? Hl Hy]; subst.
    destruct (Z.leb_spec (cmp x y) 0) as [H | H].
    + constructor; [assumption |].
      apply cmp_key in H.
      constructor; [exact H |].
      eapply Forall_impl; [| exact Hy].
      unfold descending; intros; lia.
    + constructor; [now apply IH |].
      assert (Hxy : key x <= key y).
      { destruct (Z.le_gt_cases (key y) (key x)) as [C | C]; [| lia].
        apply cmp_key in C. lia. }
      eapply Permutation_Forall;
        [apply Permutation_sym, insert_perm |].
      constructor; assumption.
Qed.

Lemma sort_sorted l : StronglySorted (descending key) (JS.sort cmp l).
Proof.
  induction l as [| x l IH]; simpl.
  - constructor.
  - now apply insert_sorted.
Qed.

(** Stability: the elements of one key keep their order. *)
Lemma insert_stable s x l :
  filter (fun a => key a =? s) (JS.insert cmp x l) =
  filter (fun a => key a =? s) (x :: l).
Proof.
  induction l as [| y l IH]; [reflexivity |].
  cbn [JS.insert].
  destruct (Z.leb_spec (cmp x y) 0) as [H | H]; [reflexivity |].
  assert (Hne : key x <> key y).
  { intros E. assert (C : key y <= key x) by lia.
    apply cmp_key in C. lia. }
  cbn [filter] in *. rewrite IH.
  destruct (Z.eqb_spec (key x) s), (Z.eqb_spec (key y) s);
    try reflexivity; congruence.
Qed.

Lemma sort_stable s l :
  filter (fun a => key a =? s) (JS.sort cmp l) =
  filter (fun a => key a =? s) l.
Proof.
  induction l as [| x l IH]; [reflexivity |].
  cbn [JS.sort]. rewrite insert_stable. cbn [filter]. now rewrite IH.
Qed.

End SortFacts.

(** ** The driver *)

Section DriverFacts.

Variable fuzzyScore : Scorer.
Context {E : Type}.

Lemma fuzzySequentialMatch_strings filter it it' decorate :
  strings it = strings it' ->
  fuzzySequentialMatch fuzzyScore filter it decorate =
  fuzzySequentialMatch fuzzyScore filter it' decorate.
Proof.
  intros H. rewrite !fuzzySequentialMatch_eq, H. reflexivity.
Qed.

Lemma annotate_pass filter decorate (o : Obj E) :
  annotate fuzzyScore filter
    (JS.pass (JS.default_param decorate (createMatchDecorator "[" "]"))) o =
  annotate fuzzyScore filter decorate o.
Proof.
  unfold annotate. now rewrite fuzzySequentialMatch_pass.
Qed.

Lemma annotate_idem filter decorate (o : Obj E) :
  annotate fuzzyScore filter decorate
    (annotate fuzzyScore filter decorate o) =
  annotate fuzzyScore filter decorate o.
Proof.
  unfold annotate at 1 3. cbn [fields rest strings].
  now rewrite (fuzzySequentialMatch_strings filter
                 (fields (annotate fuzzyScore filter decorate o))
                 (fields o) decorate eq_refl).
Qed.

Lemma fold_map_step filter decorate items (h : heap E) out :
  exists h1,
    fold_left (map_step fuzzyScore filter decorate) items (h, out) =
    (h1, (out ++ items)%list) /\
    forall l, h1 l = annotate_all fuzzyScore filter decorate items h l.
Proof.
  revert h out; induction items as [| a items IH]; intros h out.
  - exists h. rewrite app_nil_r. split; [reflexivity |].
    intros l. unfold annotate_all. now destruct (in_dec _ _ _).
  - cbn [fold_left map_step].
    destruct (IH (update h a (annotate fuzzyScore filter decorate (h a)))
                 (out ++ [a])%list) as (h1 & -> & Hh1).
    exists h1. rewrite <- app_assoc. split; [reflexivity |].
    intros l. rewrite Hh1. unfold annotate_all, update.
    destruct (in_dec Nat.eq_dec l items) as [Hin | Hin];
      destruct (in_dec Nat.eq_dec l (a :: items)) as [Hin' | Hin'];
      destruct (Nat.eqb_spec l a) as [-> | Hne];
      try reflexivity; try apply annotate_idem;
      exfalso; simpl in *; intuition congruence.
Qed.

(** [fuzzyFilterSort] in closed form. *)
Lemma fuzzyFilterSort_inv filter items decorate (h h' : heap E) out :
  fuzzyFilterSort fuzzyScore filter items decorate h = (h', out) ->
  (forall l, h' l = annotate_all fuzzyScore filter decorate items h l) /\
  out = JS.sort (compareScore h')
          (List.filter (fun i => is_defined (score (fields (h' i)))) items).
Proof.
  unfold fuzzyFilterSort.
  destruct (fold_map_step filter
              (JS.pass (JS.default_param decorate
                          (createMatchDecorator "[" "]")))
              items h []) as (h1 & -> & Hh1).
  intros H; injection H as <- <-. split; [| reflexivity].
  intros l. rewrite Hh1. unfold annotate_all.
  destruct (in_dec _ _ _); [apply annotate_pass | reflexivity].
Qed.

Lemma compareScore_key (h : heap E) a b :
  compareScore h a b <= 0 <->
  score_or_0 (fields (h b)) <= score_or_0 (fields (h a)).
Proof.
  unfold compareScore.
  destruct (Z.gtb_spec (score_or_0 (fields (h a)))
                       (score_or_0 (fields (h b))));
    destruct (Z.ltb_spec (score_or_0 (fields (h a)))
                         (score_or_0 (fields (h b)))); lia.
Qed.

End DriverFacts.

Section DriverOutcome.

Variable fuzzyScore : Scorer.
Context {E : Type}.

(** The aggregator's verdict on an object of the store. *)
Lemma annotate_all_in filter decorate items (h : heap E) l :
  In l items ->
  fields (annotate_all fuzzyScore filter decorate items h l) =
  let m := fuzzySequentialMatch fuzzyScore filter (fields (h l)) decorate in
  {| score := opt_score m;
     strings := strings (fields (h l));
     decoratedStrings := opt_decorated m |}.
Proof.
  intros Hin. unfold annotate_all.
  destruct (in_dec Nat.eq_dec l items); [reflexivity | contradiction].
Qed.

Lemma annotate_all_out filter decorate items (h : heap E) l :
  ~ In l items ->
  annotate_all fuzzyScore filter decorate items h l = h l.
Proof.
  intros Hin. unfold annotate_all.
  destruct (in_dec Nat.eq_dec l items); [contradiction | reflexivity].
Qed.

Lemma annotate_all_frame filter decorate items (h : heap E) l :
  strings (fields (annotate_all fuzzyScore filter decorate items h l)) =
    strings (fields (h l)) /\
  rest (annotate_all fuzzyScore filter decorate items h l) = rest (h l).
Proof.
  unfold annotate_all.
  destruct (in_dec Nat.eq_dec l items); split; reflexivity.
Qed.

(** What is returned: the listed references whose score is defined. *)
Lemma in_ranked filter items decorate (h h' : heap E) out l :
  fuzzyFilterSort fuzzyScore filter items decorate h = (h', out) ->
  In l out <->
  In l items /\ is_defined (score (fields (h' l))) = true.
Proof.
  intros H. apply fuzzyFilterSort_inv in H as [_ ->].
  rewrite <- (filter_In (fun i => is_defined (score (fields (h' i))))
                l items).
  split; apply Permutation_in.
  - apply sort_perm.
  - apply Permutation_sym, sort_perm.
Qed.

Lemma opt_score_max filter item decorate top :
  is_max top (map remap (rawScores fuzzyScore filter (strings item))) ->
  opt_score (fuzzySequentialMatch fuzzyScore filter item decorate) = Some top.
Proof.
  intros H.
  now rewrite (fuzzySequentialMatch_max fuzzyScore filter item decorate top H).
Qed.

Lemma opt_score_defined_iff filter item decorate :
  opt_score (fuzzySequentialMatch fuzzyScore filter item decorate) <> None <->
  exists w, In w (strings item) /\ matches fuzzyScore filter w.
Proof.
  destruct (fuzzySequentialMatch fuzzyScore filter item decorate)
    as [r |] eqn:Hm.
  - pose proof Hm as Hr.
    apply fuzzySequentialMatch_Some in Hr as (top & [Hin _] & ->).
    split; [intros _ | intros _; discriminate].
    apply in_map_iff in Hin as (s & _ & Hs).
    apply in_rawScores in Hs as (w & sc & Hw & Hsc & _).
    exists w. split; [assumption |]. unfold matches. now rewrite Hsc.
  - split; [intros C; now contradiction C |].
    intros (w & Hw & Hmatch).
    apply fuzzySequentialMatch_None_iff in Hm.
    rewrite Forall_forall in Hm. now apply Hm in Hw.
Qed.

End DriverOutcome.

(** ** Strings, [split] and [join] *)

Lemma append_nil_r (s : string) : s ++ EmptyString = s.
Proof. induction s as [| c s IH]; simpl; [reflexivity | now rewrite IH]. Qed.

Lemma append_assoc (a b c : string) : (a ++ b) ++ c = a ++ (b ++ c).
Proof. induction a as [| x a IH]; simpl; [reflexivity | now rewrite IH]. Qed.

Lemma split_from_cur (sep s : string) :
  forall k cur,
    JS.split_from sep k cur s = prepend cur (JS.split_from sep k EmptyString s).
Proof.
  induction s as [| c s IH]; intros k cur.
  - simpl. now rewrite append_nil_r.
  - cbn [JS.split_from]. destruct k as [| k].
    + destruct (String.prefix sep (String c s)).
      * simpl. now rewrite append_nil_r.
      * rewrite (IH 0%nat (cur ++ String c EmptyString)).
        rewrite (IH 0%nat (EmptyString ++ String c EmptyString)).
        destruct (JS.split_from sep 0 EmptyString s); simpl; [reflexivity |].
        now rewrite append_assoc.
    + apply IH.
Qed.

Lemma split_from_nonempty (sep s : string) :
  forall k cur, JS.split_from sep k cur s <> [].
Proof.
  induction s as [| c s IH]; intros k cur; cbn [JS.split_from].
  - discriminate.
  - destruct k; [destruct (String.prefix sep (String c s)) |];
      [discriminate | apply IH | apply IH].
Qed.

Lemma split_nonempty (s : string) : JS.split "::" s <> [].
Proof. apply split_from_nonempty. Qed.

Lemma split_sep (s : string) :
  JS.split "::" ("::" ++ s) = EmptyString :: JS.split "::" s.
Proof. destruct s; reflexivity. Qed.

Lemma split_char (c : ascii) (s : string) :
  String.prefix "::" (String c s) = false ->
  JS.split "::" (String c s) = prepend (String c EmptyString) (JS.split "::" s).
Proof.
  intros H. unfold JS.split. cbn [JS.split_from]. rewrite H.
  apply split_from_cur.
Qed.

(** [prefix "::"] looks at two characters. *)
Lemma prefix_sep (c : ascii) (s : string) :
  String.prefix "::" (String c s) = (Ascii.eqb c ":" && starts_colon s)%bool.
Proof.
  cbn [String.prefix].
  destruct (ascii_dec ":" c) as [<- | Hc].
  - rewrite Ascii.eqb_refl. cbn [andb].
    destruct s as [| d s]; [reflexivity |].
    cbn [String.prefix starts_colon].
    destruct (ascii_dec ":" d) as [<- | Hd].
    + rewrite Ascii.eqb_refl. now destruct s.
    + symmetry. apply Ascii.eqb_neq. congruence.
  - replace (Ascii.eqb c ":") with false; [reflexivity |].
    symmetry. apply Ascii.eqb_neq. congruence.
Qed.

(** Reading a string the way [split] does: separator by separator, and
    character by character in between. *)
Lemma sep_ind (P : string -> Prop) :
  P EmptyString ->
  (forall s, P s -> P ("::" ++ s)) ->
  (forall c s, String.prefix "::" (String c s) = false -> P s ->
               P (String c s)) ->
  forall s, P s.
Proof.
  intros Hnil Hsep Hchar s.
  assert (H : P s /\ forall c, P (String c s)).
  { induction s as [| d s [IH1 IH2]].
    - split; [exact Hnil |]. intros c. apply Hchar; [| exact Hnil].
      rewrite prefix_sep. apply andb_false_r.
    - split; [apply IH2 |]. intros c.
      destruct (String.prefix "::" (String c (String d s))) eqn:Hp.
      + rewrite prefix_sep in Hp. apply andb_true_iff in Hp as [Hc Hd].
        apply Ascii.eqb_eq in Hc. cbn [starts_colon] in Hd.
        apply Ascii.eqb_eq in Hd. subst c d.
        now apply (Hsep s).
      + apply Hchar; [exact Hp | apply IH2]. }
  exact (proj1 H).
Qed.

Lemma join_prepend (c : string) (l : list string) :
  l <> [] -> JS.join "::" (prepend c l) = c ++ JS.join "::" l.
Proof.
  destruct l as [| x [| y r]]; intros H; [congruence | reflexivity |].
  cbn [prepend JS.join]. now rewrite append_assoc.
Qed.

(** The fragments, joined by the separator, are the text that was split. *)
Lemma join_split (s : string) : JS.join "::" (JS.split "::" s) = s.
Proof.
  induction s as [| s IH | c s Hp IH] using sep_ind.
  - reflexivity.
  - rewrite split_sep.
    pose proof (split_nonempty s) as Hne.
    destruct (JS.split "::" s) as [| x r] eqn:E; [congruence |].
    cbn [JS.join]. rewrite <- IH. reflexivity.
  - rewrite (split_char c s Hp), join_prepend by apply split_nonempty.
    now rewrite IH.
Qed.

(** ** Added characters and the fragments *)

Section Inserted.

Variable P : ascii -> Prop.

Lemma inserted_refl (s : string) : inserted P s s.
Proof. induction s; constructor; assumption. Qed.

Lemma inserted_add_str (m s s' : string) :
  (forall c, In c (list_ascii_of_string m) -> P c) ->
  inserted P s s' -> inserted P s (m ++ s').
Proof.
  induction m as [| c m IH]; simpl; intros Hm H; [exact H |].
  apply ins_add; [apply Hm; now left |].
  apply IH; [| exact H]. intros d Hd. apply Hm. now right.
Qed.

Lemma inserted_app (a a' b b' : string) :
  inserted P a a' -> inserted P b b' -> inserted P (a ++ b) (a' ++ b').
Proof.
  intros Ha Hb. induction Ha; simpl; [exact Hb | |]; constructor; assumption.
Qed.

Lemma woven_refl (s : string) : woven P s s.
Proof.
  induction s as [| s IH | c s Hp IH] using sep_ind.
  - constructor.
  - now apply wv_sep.
  - now apply wv_char.
Qed.

Lemma woven_add_str (m s s' : string) :
  (forall c, In c (list_ascii_of_string m) -> P c) ->
  woven P s s' -> woven P s (m ++ s').
Proof.
  induction m as [| c m IH]; simpl; intros Hm H; [exact H |].
  apply wv_add; [apply Hm; now left |].
  apply IH; [| exact H]. intros d Hd. apply Hm. now right.
Qed.

Lemma ends_colon_cons (c : ascii) (u : string) :
  ends_colon u = true -> ends_colon (String c u) = true.
Proof. destruct u; [discriminate | trivial]. Qed.

Lemma starts_colon_app (u v : string) :
  starts_colon (u ++ v) =
  match u with EmptyString => starts_colon v | _ => starts_colon u end.
Proof. now destruct u. Qed.

(** The same text in front of both sides, unless that would put an added
    character between two adjacent colons. *)
Lemma woven_prefix (u v v' : string) :
  (ends_colon u = true -> starts_colon v = true -> False) ->
  woven P v v' -> woven P (u ++ v) (u ++ v').
Proof.
  intros Hcut Hv.
  induction u as [| u IH | c u Hp IH] using sep_ind.
  - exact Hv.
  - apply (wv_sep P (u ++ v) (u ++ v')). apply IH.
    intros Hu. apply Hcut. now apply ends_colon_cons, ends_colon_cons.
  - cbn [append]. apply wv_char.
    + rewrite prefix_sep in *. rewrite starts_colon_app.
      destruct u as [| d u]; [| exact Hp].
      destruct (Ascii.eqb c ":") eqn:Hc; [| reflexivity].
      destruct (starts_colon v) eqn:Hs; [| reflexivity].
      exfalso. apply Hcut; [exact Hc | reflexivity].
    + apply IH. intros Hu. apply Hcut. now apply ends_colon_cons.
Qed.

Hypothesis P_not_colon : forall c, P c -> c <> ":"%char.

Lemma woven_head (s s' : string) :
  woven P s s' -> starts_colon s = false -> starts_colon s' = false.
Proof.
  intros H. destruct H as [| s s' H | c s s' Hp H | c s s' Hc H]; simpl.
  - trivial.
  - discriminate.
  - trivial.
  - intros _. apply Ascii.eqb_neq. now apply P_not_colon.
Qed.

Lemma Forall2_prepend_keep (c : ascii) (l l' : list string) :
  Forall2 (inserted P) l l' ->
  Forall2 (inserted P) (prepend (String c EmptyString) l)
                       (prepend (String c EmptyString) l').
Proof.
  intros H. destruct H; simpl; constructor; [now constructor | assumption].
Qed.

Lemma Forall2_prepend_add (c : ascii) (l l' : list string) :
  P c ->
  Forall2 (inserted P) l l' ->
  Forall2 (inserted P) l (prepend (String c EmptyString) l').
Proof.
  intros Hc H. destruct H; simpl; constructor; [now constructor | assumption].
Qed.

(** Characters woven in leave the fragments in place: there are as many,
    and each is the fragment of the original text with characters added. *)
Lemma woven_split (s s' : string) :
  woven P s s' ->
  Forall2 (inserted P) (JS.split "::" s) (JS.split "::" s').
Proof.
  induction 1 as [| s s' H IH | c s s' Hp H IH | c s s' Hc H IH].
  - repeat constructor.
  - rewrite !split_sep. constructor; [constructor | exact IH].
  - rewrite (split_char c s Hp), (split_char c s').
    + now apply Forall2_prepend_keep.
    + rewrite prefix_sep in *.
      destruct (Ascii.eqb c ":"); [| reflexivity].
      cbn [andb] in *. now apply (woven_head s s').
  - rewrite (split_char c s').
    + now apply Forall2_prepend_add.
    + rewrite prefix_sep.
      replace (Ascii.eqb c ":") with false; [reflexivity |].
      symmetry. apply Ascii.eqb_neq. now apply P_not_colon.
Qed.

End Inserted.

(** ** Substrings *)

Lemma substring_app (s : string) :
  forall a b c : nat,
    (a <= b)%nat -> (b <= c)%nat -> (c <= String.length s)%nat ->
    String.substring a (c - a) s =
    String.substring a (b - a) s ++ String.substring b (c - b) s.
Proof.
  induction s as [| x s IH]; intros a b c Hab Hbc Hc; simpl in Hc.
  - assert (c = 0%nat) by lia. assert (b = 0%nat) by lia.
    assert (a = 0%nat) by lia. subst. reflexivity.
  - destruct a as [| a].
    + destruct b as [| b].
      * rewrite Nat.sub_0_r. cbn [String.substring Nat.sub append].
        reflexivity.
      * destruct c as [| c]; [lia |].
        rewrite !Nat.sub_0_r. cbn [String.substring Nat.sub append].
        f_equal.
        pose proof (IH 0%nat b c) as H. rewrite !Nat.sub_0_r in H.
        apply H; lia.
    + destruct b as [| b]; [lia |]. destruct c as [| c]; [lia |].
      cbn [String.substring Nat.sub]. apply IH; lia.
Qed.

Lemma substring_all (s : string) : String.substring 0 (String.length s) s = s.
Proof. induction s as [| x s IH]; simpl; [reflexivity | now rewrite IH]. Qed.

Lemma js_substring_nat (s : string) (a b : Z) :
  0 <= a <= b -> b <= Z.of_nat (String.length s) ->
  JS.substring s a b =
  String.substring (Z.to_nat a) (Z.to_nat b - Z.to_nat a) s.
Proof.
  intros Hab Hb. unfold JS.substring, JS.clamp. cbv zeta.
  replace (Nat.min (Z.to_nat a) (String.length s)) with (Z.to_nat a) by lia.
  replace (Nat.min (Z.to_nat b) (String.length s)) with (Z.to_nat b) by lia.
  replace (Nat.min (Z.to_nat a) (Z.to_nat b)) with (Z.to_nat a) by lia.
  replace (Nat.max (Z.to_nat a) (Z.to_nat b)) with (Z.to_nat b) by lia.
  reflexivity.
Qed.

Lemma js_substring_app (s : string) (a b c : Z) :
  0 <= a <= b -> b <= c -> c <= Z.of_nat (String.length s) ->
  JS.substring s a c = JS.substring s a b ++ JS.substring s b c.
Proof.
  intros Hab Hbc Hc.
  rewrite !js_substring_nat by lia.
  apply substring_app; lia.
Qed.

Lemma js_substring_from_app (s : string) (a b : Z) :
  0 <= a <= b -> b <= Z.of_nat (String.length s) ->
  JS.substring_from s a = JS.substring s a b ++ JS.substring_from s b.
Proof.
  intros Hab Hb. unfold JS.substring_from. apply js_substring_app; lia.
Qed.

Lemma js_substring_from_0 (s : string) : JS.substring_from s 0 = s.
Proof.
  unfold JS.substring_from. rewrite js_substring_nat by lia.
  simpl Z.to_nat. rewrite Nat2Z.id, Nat.sub_0_r. apply substring_all.
Qed.

Lemma ends_colon_app (u v : string) :
  ends_colon v = true -> ends_colon (u ++ v) = true.
Proof.
  intros H. induction u as [| c u IH]; simpl; [exact H |].
  destruct (u ++ v) eqn:E; [discriminate | exact IH].
Qed.

(** ** The decorator's loop *)

Section Wrapping.

Variables word left right : string.

Lemma ranges_ok_bounds (ms : list IMatch) :
  forall pos,
    ranges_ok word pos ms -> 0 <= pos <= Z.of_nat (String.length word).
Proof.
  induction ms as [| m ms IH]; intros pos; cbn [ranges_ok].
  - trivial.
  - intros (Hp & Hm & Hr). apply IH in Hr. lia.
Qed.

Lemma fold_decorate_step (ms : list IMatch) :
  forall pos acc,
    (let '(p, a) :=
       fold_left (decorate_step word left right) ms (pos, acc) in
     a ++ JS.substring_from word p) =
    acc ++ wrap_from word left right pos ms.
Proof.
  induction ms as [| m ms IH]; intros pos acc; [reflexivity |].
  cbn [fold_left decorate_step wrap_from].
  rewrite IH, !append_assoc. reflexivity.
Qed.

(** The loop and the recursion build the same text. *)
Lemma wrapMatches_eq (ms : list IMatch) :
  wrapMatches word left right ms = wrap_from word left right 0 ms.
Proof.
  unfold wrapMatches.
  apply (fold_decorate_step ms 0 EmptyString).
Qed.

Lemma marker_left (c : ascii) :
  In c (list_ascii_of_string left) -> marker_char left right c.
Proof. now left. Qed.

Lemma marker_right (c : ascii) :
  In c (list_ascii_of_string right) -> marker_char left right c.
Proof. now right. Qed.

(** The markers are additions: the word is still there, once and in order. *)
Lemma wrap_from_inserted (ms : list IMatch) :
  forall pos,
    ranges_ok word pos ms ->
    inserted (marker_char left right)
      (JS.substring_from word pos) (wrap_from word left right pos ms).
Proof.
  induction ms as [| m ms IH]; intros pos Hok; cbn [wrap_from].
  - apply inserted_refl.
  - pose proof Hok as (Hp & Hm & Hr).
    pose proof (ranges_ok_bounds ms _ Hr) as Hend.
    rewrite (js_substring_from_app word pos (m_start m)) by lia.
    rewrite (js_substring_from_app word (m_start m) (m_end m)) by lia.
    apply inserted_app; [apply inserted_refl |].
    apply inserted_add_str; [exact marker_left |].
    apply inserted_app; [apply inserted_refl |].
    apply inserted_add_str; [exact marker_right |].
    now apply IH.
Qed.

Lemma uncut_at (pos i : Z) (piece : string) :
  0 <= pos <= i -> i <= Z.of_nat (String.length word) ->
  piece = JS.substring word pos i ->
  cuts_separator word i = false ->
  ends_colon piece = true ->
  starts_colon (JS.substring_from word i) = true -> False.
Proof.
  intros Hp Hi -> Hcut He Hs. unfold cuts_separator in Hcut.
  rewrite (js_substring_app word 0 pos i) in Hcut by lia.
  rewrite (ends_colon_app _ _ He), Hs in Hcut. discriminate.
Qed.

(** With no range boundary between adjacent colons, the markers are woven
    into the word. *)
Lemma wrap_from_woven (ms : list IMatch) :
  forall pos,
    ranges_ok word pos ms ->
    separators_uncut word ms ->
    woven (marker_char left right)
      (JS.substring_from word pos) (wrap_from word left right pos ms).
Proof.
  induction ms as [| m ms IH]; intros pos Hok Hcut; cbn [wrap_from].
  - apply woven_refl.
  - pose proof Hok as (Hp & Hm & Hr).
    pose proof (ranges_ok_bounds ms _ Hr) as Hend.
    destruct (Hcut m (or_introl eq_refl)) as [Hcs Hce].
    rewrite (js_substring_from_app word pos (m_start m)) by lia.
    apply woven_prefix.
    { apply (uncut_at pos (m_start m)); trivial; lia. }
    apply woven_add_str; [exact marker_left |].
    rewrite (js_substring_from_app word (m_start m) (m_end m)) by lia.
    apply woven_prefix.
    { apply (uncut_at (m_start m) (m_end m)); trivial; lia. }
    apply woven_add_str; [exact marker_right |].
    apply IH; [exact Hr |].
    intros m' Hm'. apply Hcut. now right.
Qed.

End Wrapping.

Lemma colon_free_not_colon (s : string) (c : ascii) :
  colon_free s = true -> In c (list_ascii_of_string s) -> c <> ":"%char.
Proof.
  induction s as [| d s IH]; simpl; [contradiction |].
  intros H [<- | Hin]; apply andb_true_iff in H as [Hd Hs].
  - apply Ascii.eqb_neq. now destruct (Ascii.eqb d ":").
  - now apply IH.
Qed.

(** ** Throws, writes of the decorator and fields that refuse a write *)

(** The two assignments leave the alias lists as they are. *)
Lemma eff_writes_keep_strings {E : Type} (h : heap E) a v1 v2 l :
  strings
    (fields
       (update (update h a (Effects.set_score v1 (h a))) a
          (Effects.set_decorated v2
             (update h a (Effects.set_score v1 (h a)) a)) l))
  = strings (fields (h l)).
Proof.
  unfold update. rewrite Nat.eqb_refl.
  destruct (Nat.eqb_spec l a) as [-> | Hne]; reflexivity.
Qed.

Section EffectsFacts.

Variable X : Type.
Variable fuzzyScore : Effects.Scorer X.

(** The aggregator reads the alias list and nothing else of the item. *)
Lemma eff_match_strings filter a b decorate :
  strings a = strings b ->
  Effects.fuzzySequentialMatch X fuzzyScore filter a decorate =
  Effects.fuzzySequentialMatch X fuzzyScore filter b decorate.
Proof.
  intros H. unfold Effects.fuzzySequentialMatch. now rewrite H.
Qed.

(** The loop returns when the scorer and the decorator do. *)
Lemma eff_match_loop_returns filter decorate ws :
  (forall w, In w ws ->
     exists r, Effects.scoreWord X fuzzyScore filter w = Effects.Returns r) ->
  (forall d, decorate = Some d ->
     forall word scores, exists fragments,
       Effects.call d word scores = Effects.Returns fragments) ->
  forall st, exists st',
    Effects.match_loop X fuzzyScore filter decorate ws st
    = Effects.Returns st'.
Proof.
  intros Hscore Hdec.
  induction ws as [| w ws IH]; intros st; cbn [Effects.match_loop].
  - now exists st.
  - assert (Hstep : exists st1,
              Effects.match_step X fuzzyScore filter decorate st w
              = Effects.Returns st1).
    { destruct st as [top ds]. unfold Effects.match_step.
      destruct (Hscore w (or_introl eq_refl)) as (r & ->).
      cbn [Effects.bind]. unfold Effects.decorate_word.
      destruct decorate as [d |].
      - destruct (Hdec d eq_refl w r) as (fr & ->). cbn [Effects.bind].
        destruct (option_map (Effects.writes d w) r) as [sc |];
          [destruct (gt (Int (remap (fs_score sc))) top) |]; now eexists.
      - cbn [Effects.bind].
        destruct r as [sc |];
          [destruct (gt (Int (remap (fs_score sc))) top) |]; now eexists. }
    destruct Hstep as (st1 & ->). cbn [Effects.bind].
    apply IH. intros w' Hw'. apply Hscore. now right.
Qed.

Lemma returns_normally_default (decorate : JS.arg (Effects.Decorator X)) d :
  Effects.returns_normally decorate ->
  JS.default_param decorate (Effects.pure (createMatchDecorator "[" "]"))
  = Some d ->
  forall word scores, exists fragments,
    Effects.call d word scores = Effects.Returns fragments.
Proof.
  destruct decorate as [| | d']; cbn [JS.default_param Effects.returns_normally].
  - intros _ H; injection H as <-. intros word scores. now eexists.
  - discriminate.
  - intros Hd H; injection H as <-. exact Hd.
Qed.

Lemma returns_normally_pass (decorate : JS.arg (Effects.Decorator X)) :
  Effects.returns_normally decorate ->
  Effects.returns_normally
    (JS.pass (JS.default_param decorate
                (Effects.pure (createMatchDecorator "[" "]")))).
Proof.
  destruct decorate as [| | d]; cbn; trivial.
  intros _ word scores. now eexists.
Qed.

(** The aggregator returns when the scorer returns on the item's aliases
    and the decorator returns; what it returns is [undefined] or a result
    with a defined score. *)
Lemma eff_match_returns filter item decorate :
  (forall w, In w (strings item) ->
     exists r, Effects.scoreWord X fuzzyScore filter w = Effects.Returns r) ->
  Effects.returns_normally decorate ->
  exists m,
    Effects.fuzzySequentialMatch X fuzzyScore filter item decorate
    = Effects.Returns m /\
    (m = None \/
     exists top ds,
       m = Some {| score := Some top;
                   strings := strings item;
                   decoratedStrings := Some ds |}).
Proof.
  intros Hscore Hdec. unfold Effects.fuzzySequentialMatch.
  destruct (eff_match_loop_returns filter
              (JS.default_param decorate
                 (Effects.pure (createMatchDecorator "[" "]")))
              (strings item) Hscore
              (fun d => returns_normally_default decorate d Hdec)
              (NEGATIVE_INFINITY, [])) as ([top ds] & ->).
  cbn [Effects.bind]. eexists. split; [reflexivity |].
  destruct top as [| top]; [now left | right; now eexists _, _].
Qed.

(** A loop that throws was thrown at by the scorer or by the decorator. *)
Lemma eff_match_loop_throws filter decorate ws :
  forall st x,
    Effects.match_loop X fuzzyScore filter decorate ws st = Effects.Throws x ->
    exists w,
      In w ws /\
      (Effects.scoreWord X fuzzyScore filter w = Effects.Throws x \/
       exists d r,
         decorate = Some d /\
         Effects.scoreWord X fuzzyScore filter w = Effects.Returns r /\
         Effects.call d w r = Effects.Throws x).
Proof.
  induction ws as [| w ws IH]; intros [top ds] x; cbn [Effects.match_loop];
    [discriminate |].
  unfold Effects.match_step.
  destruct (Effects.scoreWord X fuzzyScore filter w) as [r | y] eqn:Hr.
  - cbn [Effects.bind]. unfold Effects.decorate_word.
    destruct decorate as [d |].
    + destruct (Effects.call d w r) as [fr | y] eqn:Hcall.
      * cbn [Effects.bind].
        destruct (option_map (Effects.writes d w) r) as [sc |];
          [destruct (gt (Int (remap (fs_score sc))) top) |];
          cbn [Effects.bind]; intros H; apply IH in H as (w' & Hw' & H);
          exists w'; (split; [now right | exact H]).
      * cbn [Effects.bind]. intros H; injection H as <-.
        exists w. split; [now left |]. right. now exists d, r.
    + cbn [Effects.bind].
      destruct r as [sc |];
        [destruct (gt (Int (remap (fs_score sc))) top) |];
        cbn [Effects.bind]; intros H; apply IH in H as (w' & Hw' & H);
        exists w'; (split; [now right | exact H]).
  - cbn [Effects.bind]. intros H; injection H as <-.
    exists w. split; [now left | now left].
Qed.

(** The aggregator throws nothing of its own: the default decorator
    returns, so what it throws comes from the scorer or from a decorator
    the caller passed. *)
Lemma eff_match_throws filter item decorate x :
  Effects.fuzzySequentialMatch X fuzzyScore filter item decorate
  = Effects.Throws x ->
  Effects.callee_throws X fuzzyScore filter decorate item x.
Proof.
  unfold Effects.fuzzySequentialMatch.
  destruct (Effects.match_loop X fuzzyScore filter _ (strings item)
              (NEGATIVE_INFINITY, [])) as [[top ds] | y] eqn:Hloop;
    cbn [Effects.bind]; [discriminate |].
  intros H; injection H as <-.
  apply eff_match_loop_throws in Hloop as (w & Hw & [H | (d & r & Hd & Hr & Hc)]).
  - exists w. split; [exact Hw | now left].
  - exists w. split; [exact Hw |].
    destruct decorate as [| | d']; cbn [JS.default_param] in Hd.
    + injection Hd as <-. discriminate Hc.
    + discriminate Hd.
    + injection Hd as <-. right. now exists d', r.
Qed.

Lemma callee_throws_pass filter (decorate : JS.arg (Effects.Decorator X))
  item x :
  Effects.callee_throws X fuzzyScore filter
    (JS.pass (JS.default_param decorate
                (Effects.pure (createMatchDecorator "[" "]")))) item x ->
  Effects.callee_throws X fuzzyScore filter decorate item x.
Proof.
  intros (w & Hw & [H | (d & r & Hd & Hr & Hc)]); exists w;
    (split; [exact Hw |]); [now left |].
  destruct decorate as [| | d']; cbn [JS.default_param JS.pass] in Hd.
  - injection Hd as <-. discriminate Hc.
  - discriminate Hd.
  - injection Hd as <-. right. now exists d', r.
Qed.

Lemma callee_throws_strings filter decorate a b x :
  strings a = strings b ->
  Effects.callee_throws X fuzzyScore filter decorate a x ->
  Effects.callee_throws X fuzzyScore filter decorate b x.
Proof. unfold Effects.callee_throws. now intros ->. Qed.

Variable writable : loc -> Effects.field -> bool.
Context {E : Type}.

(** Whatever happens in the [map], the alias lists and the other fields of
    every object stay, and an object that is not listed is left alone. *)
Lemma eff_map_loop_frame filter decorate items :
  forall (h : heap E) out,
    let h' := fst (Effects.map_loop X fuzzyScore writable filter decorate
                     items h out) in
    (forall l, strings (fields (h' l)) = strings (fields (h l)) /\
               rest (h' l) = rest (h l)) /\
    (forall l, ~ In l items -> h' l = h l).
Proof.
  induction items as [| a items IH]; intros h out; cbn [Effects.map_loop].
  - cbn [fst]. split; [split |]; reflexivity.
  - destruct (Effects.fuzzySequentialMatch X fuzzyScore filter
                (fields (h a)) decorate) as [m | x];
      [| cbn [fst]; split; [split |]; reflexivity].
    destruct (writable a Effects.score_field); cbn [negb];
      [| cbn [fst]; split; [split |]; reflexivity].
    destruct (writable a Effects.decoratedStrings_field); cbn [negb].
    + match goal with
      | |- context [Effects.map_loop _ _ _ _ _ items ?h2 ?o] =>
          destruct (IH h2 o) as [Hkeep Hout]
      end.
      split.
      * intros l. destruct (Hkeep l) as [Hs Hr]. rewrite Hs, Hr.
        unfold update. destruct (Nat.eqb_spec l a) as [-> | Hne];
          [rewrite Nat.eqb_refl; split; reflexivity |].
        destruct (Nat.eqb l a) eqn:C;
          [apply Nat.eqb_eq in C; contradiction | split; reflexivity].
      * intros l Hl. rewrite Hout by (intros C; apply Hl; now right).
        unfold update.
        destruct (Nat.eqb_spec l a) as [-> | Hne];
          [exfalso; apply Hl; now left | reflexivity].
    + cbn [fst]. split.
      * intros l. unfold update.
        destruct (Nat.eqb_spec l a) as [-> | Hne]; split; reflexivity.
      * intros l Hl. unfold update.
        destruct (Nat.eqb_spec l a) as [-> | Hne];
          [exfalso; apply Hl; now left | reflexivity].
Qed.

(** A [map] that returns has listed every item and has written, on each,
    what the aggregator returned for it. *)
Lemma eff_map_loop_written filter decorate items :
  forall (h h' : heap E) out mapped,
    Effects.map_loop X fuzzyScore writable filter decorate items h out
    = (h', Effects.Returns mapped) ->
    mapped = (out ++ items)%list /\
    forall l, In l items ->
      exists m,
        Effects.fuzzySequentialMatch X fuzzyScore filter (fields (h l))
          decorate = Effects.Returns m /\
        score (fields (h' l)) = opt_score m /\
        decoratedStrings (fields (h' l)) = opt_decorated m.
Proof.
  induction items as [| a items IH]; intros h h' out mapped;
    cbn [Effects.map_loop].
  - intros H; injection H as <- <-. rewrite app_nil_r.
    split; [reflexivity | intros l []].
  - destruct (Effects.fuzzySequentialMatch X fuzzyScore filter
                (fields (h a)) decorate) as [m | x] eqn:Hm;
      [| discriminate].
    destruct (writable a Effects.score_field); cbn [negb]; [| discriminate].
    destruct (writable a Effects.decoratedStrings_field); cbn [negb];
      [| discriminate].
    set (h1 := update h a (Effects.set_score (opt_score m) (h a))).
    set (h2 := update h1 a (Effects.set_decorated (opt_decorated m) (h1 a))).
    intros Hrun.
    pose proof (eff_map_loop_frame filter decorate items h2 (out ++ [a])%list)
      as Hframe.
    rewrite Hrun in Hframe. cbn [fst] in Hframe.
    destruct Hframe as [_ Hout].
    destruct (IH h2 h' (out ++ [a])%list mapped Hrun) as [-> Hin].
    split; [now rewrite <- app_assoc |].
    assert (Hh2a : fields (h2 a) =
                   {| score := opt_score m;
                      strings := strings (fields (h a));
                      decoratedStrings := opt_decorated m |}).
    { subst h2 h1. unfold update. rewrite !Nat.eqb_refl. reflexivity. }
    assert (Hstr : forall l, strings (fields (h2 l)) = strings (fields (h l))).
    { intros l. subst h2 h1. apply eff_writes_keep_strings. }
    intros l Hl.
    destruct (in_dec Nat.eq_dec l items) as [Hi | Hi].
    + destruct (Hin l Hi) as (m' & Hm' & Hs & Hd).
      exists m'. split; [| split; assumption].
      rewrite <- Hm'. apply eff_match_strings. symmetry. apply Hstr.
    + destruct Hl as [<- | Hl]; [| contradiction].
      exists m. rewrite (Hout a Hi), Hh2a. now repeat split.
Qed.

(** The [map] returns when every call returns and every listed item can
    be written. *)
Lemma eff_map_loop_returns filter decorate items :
  forall (h : heap E) out,
    (forall l w, In l items -> In w (strings (fields (h l))) ->
       exists r,
         Effects.scoreWord X fuzzyScore filter w = Effects.Returns r) ->
    Effects.returns_normally decorate ->
    (forall l, In l items ->
       writable l Effects.score_field = true /\
       writable l Effects.decoratedStrings_field = true) ->
    exists h' mapped,
      Effects.map_loop X fuzzyScore writable filter decorate items h out
      = (h', Effects.Returns mapped).
Proof.
  induction items as [| a items IH]; intros h out Hscore Hdec Hw;
    cbn [Effects.map_loop].
  - now eexists _, _.
  - destruct (eff_match_returns filter (fields (h a)) decorate
                (fun w => Hscore a w (or_introl eq_refl)) Hdec)
      as (m & -> & _).
    destruct (Hw a (or_introl eq_refl)) as [-> ->]. cbn [negb].
    apply IH; trivial.
    + intros l w Hl Hin. apply (Hscore l w); [now right |].
      now rewrite eff_writes_keep_strings in Hin.
    + intros l Hl. apply Hw. now right.
Qed.

(** A [map] that throws was thrown at while it worked on a listed item,
    or met a listed item one of whose two fields cannot be written. *)
Lemma eff_map_loop_throws filter decorate items :
  forall (h h' : heap E) out x,
    Effects.map_loop X fuzzyScore writable filter decorate items h out
    = (h', Effects.Throws x) ->
    exists l,
      In l items /\
      (Effects.callee_throws X fuzzyScore filter decorate (fields (h l)) x \/
       (x = Effects.TypeError /\
        (writable l Effects.score_field = false \/
         writable l Effects.decoratedStrings_field = false))).
Proof.
  induction items as [| a items IH]; intros h h' out x;
    cbn [Effects.map_loop]; [discriminate |].
  destruct (Effects.fuzzySequentialMatch X fuzzyScore filter
              (fields (h a)) decorate) as [m | y] eqn:Hm.
  - destruct (writable a Effects.score_field) eqn:Hws; cbn [negb].
    + destruct (writable a Effects.decoratedStrings_field) eqn:Hwd;
        cbn [negb].
      * intros Hrun. apply IH in Hrun as (l & Hl & [H | H]);
          exists l; (split; [now right |]); [left | now right].
        eapply callee_throws_strings; [| exact H].
        apply eff_writes_keep_strings.
      * intros H; injection H as _ <-. exists a.
        split; [now left |]. right. split; [reflexivity | now right].
    + intros H; injection H as _ <-. exists a.
      split; [now left |]. right. split; [reflexivity | now left].
  - intros H; injection H as _ <-. exists a. split; [now left |].
    left. now apply eff_match_throws.
Qed.

End EffectsFacts.

(** ** The two embeddings agree where nothing throws or writes *)

Section EffectsRefine.

Variable X : Type.
Variable fuzzyScore : PureScorer.

Lemma eff_match_loop_pure filter (decorate : option MatchDecorator) ws :
  forall st,
    Effects.match_loop X (Effects.returning fuzzyScore) filter
      (option_map Effects.pure decorate) ws st
    = Effects.Returns (fold_left (match_step fuzzyScore filter decorate) ws st).
Proof.
  induction ws as [| w ws IH]; intros [top ds];
    cbn [Effects.match_loop fold_left]; [reflexivity |].
  unfold Effects.match_step, match_step, Effects.scoreWord, scoreWord,
    Effects.returning.
  cbn [Effects.bind].
  destruct decorate as [d |]; cbn [option_map Effects.decorate_word
                                   Effects.pure Effects.call Effects.writes
                                   Effects.bind].
  - destruct (fuzzyScore filter (JS.toLowerCase filter) 0 w
                (JS.toLowerCase w) 0 true) as [sc |];
      cbn [option_map Effects.bind].
    + destruct (gt (Int (remap (fs_score sc))) top);
        cbn [Effects.bind]; apply IH.
    + apply IH.
  - destruct (fuzzyScore filter (JS.toLowerCase filter) 0 w
                (JS.toLowerCase w) 0 true) as [sc |];
      cbn [option_map Effects.bind].
    + destruct (gt (Int (remap (fs_score sc))) top);
        cbn [Effects.bind]; apply IH.
    + apply IH.
Qed.

(** The aggregator of this section, run on a scorer and a decorator of
    the embedding above, returns what the aggregator above gives. *)
Lemma eff_match_pure filter item (decorate : JS.arg MatchDecorator) :
  Effects.fuzzySequentialMatch X (Effects.returning fuzzyScore) filter item
    (Effects.lift decorate)
  = Effects.Returns (fuzzySequentialMatch fuzzyScore filter item decorate).
Proof.
  unfold Effects.fuzzySequentialMatch, fuzzySequentialMatch.
  replace (JS.default_param (Effects.lift decorate)
             (Effects.pure (createMatchDecorator "[" "]")))
    with (option_map (@Effects.pure X)
            (JS.default_param decorate (createMatchDecorator "[" "]")))
    by (now destruct decorate).
  rewrite eff_match_loop_pure. cbn [Effects.bind].
  now destruct (fold_left _ _ _) as [top ds].
Qed.

Lemma lift_pass (decorate : JS.arg MatchDecorator) :
  JS.pass (JS.default_param (@Effects.lift X decorate)
             (Effects.pure (createMatchDecorator "[" "]")))
  = Effects.lift
      (JS.pass (JS.default_param decorate (createMatchDecorator "[" "]"))).
Proof. now destruct decorate. Qed.

Context {E : Type}.

Lemma eff_map_loop_pure filter (decorate : JS.arg MatchDecorator) items :
  forall (h h' : heap E) out,
    (forall l, h l = h' l) ->
    exists hE,
      Effects.map_loop X (Effects.returning fuzzyScore) (fun _ _ => true)
        filter (Effects.lift decorate) items h out
      = (hE, Effects.Returns
               (snd (fold_left (map_step fuzzyScore filter decorate) items
                       (h', out)))) /\
      forall l,
        hE l = fst (fold_left (map_step fuzzyScore filter decorate) items
                      (h', out)) l.
Proof.
  induction items as [| a items IH]; intros h h' out Hh;
    cbn [Effects.map_loop fold_left].
  - exists h. now split.
  - rewrite eff_match_pure. cbn [negb]. cbv iota.
    unfold map_step at 2. apply IH. intros l. unfold update.
    rewrite Nat.eqb_refl.
    destruct (Nat.eqb l a); [| apply Hh].
    unfold Effects.set_decorated, Effects.set_score, annotate.
    cbn [fields rest score strings decoratedStrings].
    now rewrite (Hh a).
Qed.

End EffectsRefine.

(** * The claims *)

(** C1.  When the best raw score among an item's matching aliases is [best],
    the aggregator returns [best] remapped ([0] becomes [1], every negative
    or positive score is left as it is), and [fuzzyFilterSort] keeps the item
    with that score; so an item whose best alias scores exactly [0] is
    returned with score [1]. *)
Theorem zero_score_remapped_and_kept :
  forall (fuzzyScore : Scorer) (E : Type) (filter : string)
         (items : list loc) (decorate : JS.arg MatchDecorator)
         (h : heap E) (l : loc) (best : Z),
    In l items ->
    is_max best (rawScores fuzzyScore filter (strings (fields (h l)))) ->
    remap 0 = 1 /\
    (forall s, s <> 0 -> remap s = s) /\
    opt_score (fuzzySequentialMatch fuzzyScore filter (fields (h l)) decorate)
      = Some (if best =? 0 then 1 else best) /\
    let '(h', out) := fuzzyFilterSort fuzzyScore filter items decorate h in
    In l out /\
    score (fields (h' l)) = Some (if best =? 0 then 1 else best).
Proof.
  intros fuzzyScore E filter items decorate h l best Hl Hbest.
  assert (Hm : opt_score (fuzzySequentialMatch fuzzyScore filter
                            (fields (h l)) decorate) = Some (remap best))
    by (apply opt_score_max, is_max_remap, Hbest).
  split; [reflexivity |]. split.
  { intros s Hs. unfold remap. now destruct (Z.eqb_spec s 0). }
  split; [exact Hm |].
  destruct (fuzzyFilterSort fuzzyScore filter items decorate h)
    as [h' out] eqn:Hrun.
  assert (Hscore : score (fields (h' l)) = Some (remap best)).
  { apply fuzzyFilterSort_inv in Hrun as [Hh _].
    now rewrite Hh, annotate_all_in. }
  split; [| exact Hscore].
  apply (in_ranked fuzzyScore filter items decorate h h' out l Hrun).
  split; [assumption | now rewrite Hscore].
Qed.

Lemma zero_score_remapped_and_kept_witness :
  let '(h', out) :=
    fuzzyFilterSort sampleScorer "d" [0; 1; 2; 3]%nat JS.Omitted sampleHeap in
  In 3%nat out /\ score (fields (h' 3%nat)) = Some 1.
Proof.
  assert (Hin : In 3%nat [0; 1; 2; 3]%nat) by (simpl; tauto).
  assert (Hmax : is_max 0 (rawScores sampleScorer "d"
                             (strings (fields (sampleHeap 3%nat))))).
  { split; [now left |].
    intros x Hx. vm_compute in Hx. destruct Hx as [<- | []]. lia. }
  exact (proj2 (proj2 (proj2
           (zero_score_remapped_and_kept sampleScorer unit "d"
              [0; 1; 2; 3]%nat JS.Omitted sampleHeap 3%nat 0 Hin Hmax)))).
Defined.

(** C2.  The aggregator returns [undefined] exactly when no alias matches,
    and otherwise returns the greatest of the remapped scores of the
    matching aliases, together with the item's own alias list. *)
Theorem fuzzySequentialMatch_best_alias :
  forall (fuzzyScore : Scorer) (filter : string) (item : ScorableTextItem)
         (decorate : JS.arg MatchDecorator),
    (fuzzySequentialMatch fuzzyScore filter item decorate = None <->
     forall w, In w (strings item) -> ~ matches fuzzyScore filter w) /\
    ((exists w, In w (strings item) /\ matches fuzzyScore filter w) <->
     exists r, fuzzySequentialMatch fuzzyScore filter item decorate = Some r) /\
    (forall r,
       fuzzySequentialMatch fuzzyScore filter item decorate = Some r ->
       strings r = strings item /\
       exists top,
         score r = Some top /\
         is_max top (map remap (rawScores fuzzyScore filter (strings item)))).
Proof.
  intros fuzzyScore filter item decorate.
  assert (Hnone :
            fuzzySequentialMatch fuzzyScore filter item decorate = None <->
            forall w, In w (strings item) -> ~ matches fuzzyScore filter w).
  { rewrite fuzzySequentialMatch_None_iff, Forall_forall.
    unfold matches. split; intros H w Hw.
    - intros C. apply C. now apply H.
    - specialize (H w Hw).
      destruct (scoreWord fuzzyScore filter w); [| reflexivity].
      exfalso. apply H. discriminate. }
  split; [exact Hnone |]. split.
  - split.
    + intros (w & Hw & Hmatch).
      destruct (fuzzySequentialMatch fuzzyScore filter item decorate)
        as [r |] eqn:Hm; [now exists r |].
      exfalso. exact (proj1 Hnone eq_refl w Hw Hmatch).
    + intros (r & Hr).
      apply (opt_score_defined_iff fuzzyScore filter item decorate).
      rewrite Hr.
      apply fuzzySequentialMatch_Some in Hr as (top & _ & ->).
      discriminate.
  - intros r Hr.
    apply fuzzySequentialMatch_Some in Hr as (top & Hmax & ->).
    split; [reflexivity |]. now exists top.
Qed.

Lemma fuzzySequentialMatch_best_alias_witness :
  exists r,
    fuzzySequentialMatch sampleScorer "x" threeAliases JS.Omitted = Some r /\
    score r = Some 1 /\
    is_max 1 (map remap (rawScores sampleScorer "x" (strings threeAliases))).
Proof.
  pose proof (fuzzySequentialMatch_best_alias sampleScorer "x" threeAliases
                JS.Omitted) as (_ & Hsome & Hmax).
  destruct (proj1 Hsome) as (r & Hr).
  { exists "door". split; [simpl; tauto | discriminate]. }
  exists r. split; [exact Hr |].
  destruct (Hmax r Hr) as (_ & top & Hscore & Htop).
  assert (Hone : is_max 1 (map remap
                             (rawScores sampleScorer "x"
                                (strings threeAliases)))).
  { split; [simpl; tauto |].
    intros x Hx. vm_compute in Hx. destruct Hx as [<- | [<- | []]]; lia. }
  split; [| exact Hone].
  now rewrite Hscore, (is_max_unique _ _ _ Htop Hone).
Defined.



(** C4.  [fuzzyFilterSort] leaves every object outside the collection as it
    was, changes nothing but [score] and [decoratedStrings] on the objects of
    the collection, and returns references taken from the collection, each
    at most as often as it was given. *)
Theorem fuzzyFilterSort_frame :
  forall (fuzzyScore : Scorer) (E : Type) (filter : string)
         (items : list loc) (decorate : JS.arg MatchDecorator) (h : heap E),
    let '(h', out) := fuzzyFilterSort fuzzyScore filter items decorate h in
    (forall l, ~ In l items -> h' l = h l) /\
    (forall l,
       strings (fields (h' l)) = strings (fields (h l)) /\
       rest (h' l) = rest (h l)) /\
    incl out items /\
    (forall l, (count_occ Nat.eq_dec out l <= count_occ Nat.eq_dec items l)%nat).
Proof.
  intros fuzzyScore E filter items decorate h.
  destruct (fuzzyFilterSort fuzzyScore filter items decorate h)
    as [h' out] eqn:Hrun.
  pose proof (fuzzyFilterSort_inv fuzzyScore filter items decorate h h' out
                Hrun) as [Hh Hout].
  split; [| split; [| split]].
  - intros l Hl. rewrite Hh. now apply annotate_all_out.
  - intros l. rewrite Hh. apply annotate_all_frame.
  - intros l Hl.
    now apply (in_ranked fuzzyScore filter items decorate h h' out l Hrun).
  - intros l. rewrite Hout.
    rewrite (proj1 (Permutation_count_occ Nat.eq_dec _ _)
               (sort_perm (compareScore h') _) l).
    clear. induction items as [| a items IH]; simpl; [lia |].
    destruct (is_defined (score (fields (h' a)))); simpl;
      destruct (Nat.eq_dec a l); lia.
Qed.

Lemma fuzzyFilterSort_frame_witness :
  let '(h', out) :=
    fuzzyFilterSort sampleScorer "x" [0; 4]%nat JS.Omitted staleHeap in
  h' 7%nat = staleHeap 7%nat /\
  strings (fields (h' 0%nat)) = ["oven"] /\
  incl out [0; 4]%nat.
Proof.
  pose proof (fuzzyFilterSort_frame sampleScorer unit "x" [0; 4]%nat
                JS.Omitted staleHeap) as H.
  destruct (fuzzyFilterSort sampleScorer "x" [0; 4]%nat JS.Omitted staleHeap)
    as [h' out].
  destruct H as (Hout & Hkeep & Hincl & _).
  split; [| split; [| exact Hincl]].
  - apply Hout. simpl. intros [C | [C | []]]; discriminate.
  - exact (proj1 (Hkeep 0%nat)).
Defined.

(** C5, as the code has it.  Without a scorer result the decorator returns
    the alias whole, as the only fragment, and does not split it; the
    aggregator's result holds one group per alias, matching or not, in alias
    order, and the group of an alias that does not match is that alias
    alone. *)
Theorem unmatched_alias_is_one_fragment :
  forall (fuzzyScore : Scorer) (filter : string),
    (forall word surroundWith,
       _decorateMatch word surroundWith None = [word]) /\
    (forall item d r,
       fuzzySequentialMatch fuzzyScore filter item (JS.Passed d) = Some r ->
       decoratedStrings r =
       Some (map (fun w => d w (scoreWord fuzzyScore filter w))
                 (strings item))) /\
    (forall item left right r,
       fuzzySequentialMatch fuzzyScore filter item
         (JS.Passed (createMatchDecorator left right)) = Some r ->
       exists groups,
         decoratedStrings r = Some groups /\
         List.length groups = List.length (strings item) /\
         forall i w,
           nth_error (strings item) i = Some w ->
           ~ matches fuzzyScore filter w ->
           nth_error groups i = Some [w]).
Proof.
  intros fuzzyScore filter.
  split; [reflexivity |]. split.
  - intros item d r Hr.
    now apply fuzzySequentialMatch_Some in Hr as (top & _ & ->).
  - intros item left right r Hr.
    apply fuzzySequentialMatch_Some in Hr as (top & _ & ->).
    eexists. split; [reflexivity |].
    cbn [JS.default_param decorations_opt]. unfold decorations.
    split; [apply length_map |].
    intros i w Hw Hno.
    rewrite nth_error_map, Hw. cbn [option_map]. f_equal.
    unfold matches in Hno.
    destruct (scoreWord fuzzyScore filter w) as [sc |]; [| reflexivity].
    exfalso. apply Hno. discriminate.
Qed.

Lemma unmatched_alias_is_one_fragment_witness :
  exists r groups,
    fuzzySequentialMatch sampleScorer "x" threeAliases
      (JS.Passed (createMatchDecorator "<" ">")) = Some r /\
    decoratedStrings r = Some groups /\
    List.length groups = 3%nat /\
    nth_error groups 2 = Some ["oven"].
Proof.
  pose proof (unmatched_alias_is_one_fragment sampleScorer "x")
    as (_ & _ & H).
  eexists. 
  destruct (H threeAliases "<" ">" _ eq_refl) as (groups & Hg & Hlen & Hnth).
  exists groups. split; [reflexivity |]. split; [exact Hg |].
  split; [exact Hlen |].
  apply (Hnth 2%nat "oven"); [reflexivity |].
  intros C. now apply C.
Defined.

(** C5 as stated fails: an alias that holds the separator comes back
    unsplit when there is no scorer result. *)
Lemma unmatched_alias_is_not_split :
  _decorateMatch "light::kitchen" ("[", "]") None = ["light::kitchen"] /\
  JS.split "::" "light::kitchen" = ["light"; "kitchen"].
Proof. split; reflexivity. Qed.

(** C6, as the code has it.  The decorator wraps the ranges against the
    offsets of the original string and then splits the wrapped text at each
    separator of the wrapped text; the fragments, joined by the separator,
    are the wrapped text.  With ranges that are in order and within the
    word, the wrapped text is the word with marker characters added; when
    moreover the markers hold no colon and no range starts or ends between
    two adjacent colons, the fragments are those of the original text, each
    with marker characters added.  Decorating "light::kitchen" with the
    range of "kitchen" gives "light" and "[kitchen]". *)
Theorem decorate_wraps_then_splits :
  (forall (word left right : string) (sc : FuzzyScore),
     let ms := createMatches sc in
     let wrapped := wrapMatches word left right ms in
     _decorateMatch word (left, right) (Some sc) = JS.split "::" wrapped /\
     JS.join "::" (_decorateMatch word (left, right) (Some sc)) = wrapped /\
     wrapped = wrap_from word left right 0 ms /\
     (ranges_ok word 0 ms ->
      inserted (marker_char left right) word wrapped) /\
     (ranges_ok word 0 ms ->
      colon_free left = true -> colon_free right = true ->
      separators_uncut word ms ->
      Forall2 (inserted (marker_char left right))
        (JS.split "::" word)
        (_decorateMatch word (left, right) (Some sc))))
  /\
  (forall s,
     _decorateMatch "light::kitchen" ("[", "]")
       (Some {| fs_score := s; fs_ranges := [mkMatch 7 14] |})
     = ["light"; "[kitchen]"]).
Proof.
  split; [| reflexivity].
  intros word left right sc ms wrapped.
  assert (Hdec : _decorateMatch word (left, right) (Some sc)
                 = JS.split "::" wrapped) by reflexivity.
  rewrite Hdec.
  split; [reflexivity |].
  split; [apply join_split |].
  split; [apply wrapMatches_eq |].
  split.
  - intros Hok. subst wrapped. rewrite wrapMatches_eq.
    rewrite <- (js_substring_from_0 word) at 1.
    now apply wrap_from_inserted.
  - intros Hok Hl Hr Hcut. subst wrapped. rewrite wrapMatches_eq.
    apply woven_split.
    + intros c [Hc | Hc].
      * exact (colon_free_not_colon left c Hl Hc).
      * exact (colon_free_not_colon right c Hr Hc).
    + rewrite <- (js_substring_from_0 word) at 1.
      now apply wrap_from_woven.
Qed.

Lemma decorate_wraps_then_splits_witness :
  Forall2 (inserted (marker_char "[" "]"))
    (JS.split "::" "light::kitchen")
    (_decorateMatch "light::kitchen" ("[", "]")
       (Some {| fs_score := 3; fs_ranges := [mkMatch 7 14] |})).
Proof.
  apply (proj1 decorate_wraps_then_splits "light::kitchen" "[" "]"
           {| fs_score := 3; fs_ranges := [mkMatch 7 14] |}).
  - simpl; lia.
  - reflexivity.
  - reflexivity.
  - intros m [<- | []]; split; reflexivity.
Defined.

(** C6 as stated fails: a range that ends between the two colons of a
    separator leaves the text in one piece, although the original text
    holds the separator. *)
Lemma range_inside_separator_is_not_split :
  _decorateMatch "light::kitchen" ("[", "]")
    (Some {| fs_score := 3; fs_ranges := [mkMatch 0 6] |})
  = ["[light:]:kitchen"] /\
  JS.split "::" "light::kitchen" = ["light"; "kitchen"].
Proof. split; reflexivity. Qed.







(** C9.  After a pass, the score of a listed item is defined exactly when
    one of its aliases matches the filter; whatever score the item held
    before, it is [undefined] afterwards when no alias matches. *)
Theorem score_defined_iff_some_alias_matches :
  forall (fuzzyScore : Scorer) (E : Type) (filter : string)
         (items : list loc) (decorate : JS.arg MatchDecorator)
         (h : heap E) (l : loc),
    In l items ->
    let '(h', _) := fuzzyFilterSort fuzzyScore filter items decorate h in
    (score (fields (h' l)) <> None <->
     exists w, In w (strings (fields (h l))) /\ matches fuzzyScore filter w) /\
    ((forall w, In w (strings (fields (h l))) ->
                ~ matches fuzzyScore filter w) ->
     score (fields (h' l)) = None).
Proof.
  intros fuzzyScore E filter items decorate h l Hl.
  destruct (fuzzyFilterSort fuzzyScore filter items decorate h)
    as [h' out] eqn:Hrun.
  apply fuzzyFilterSort_inv in Hrun as [Hh _].
  rewrite Hh, annotate_all_in by assumption. cbn [score].
  pose proof (opt_score_defined_iff fuzzyScore filter (fields (h l)) decorate)
    as Hiff.
  split; [exact Hiff |].
  intros Hnone.
  destruct (opt_score _) as [s |]; [| reflexivity].
  exfalso. destruct (proj1 Hiff) as (w & Hw & Hm); [discriminate |].
  exact (Hnone w Hw Hm).
Qed.

Lemma score_defined_iff_some_alias_matches_witness :
  score (fields (staleHeap 0%nat)) = Some 7 /\
  let '(h', _) :=
    fuzzyFilterSort sampleScorer "x" [0; 1]%nat JS.Omitted staleHeap in
  (score (fields (h' 0%nat)) <> None <->
   exists w, In w (strings (fields (staleHeap 0%nat))) /\
             matches sampleScorer "x" w) /\
  ((forall w, In w (strings (fields (staleHeap 0%nat))) ->
              ~ matches sampleScorer "x" w) ->
   score (fields (h' 0%nat)) = None).
Proof.
  split; [reflexivity |].
  apply (score_defined_iff_some_alias_matches sampleScorer unit "x"
           [0; 1]%nat JS.Omitted staleHeap 0%nat).
  simpl; tauto.
Defined.

(** C10.  Leaving the decorator out is the same as passing the bracket
    decorator, in the aggregator and in the driver: every listed item that
    has a matching alias is then returned and carries one bracket-decorated
    group per alias.  Only an explicit falsy decorator yields no group. *)
Theorem default_decorator_is_brackets :
  forall (fuzzyScore : Scorer) (filter : string),
    (forall item,
       fuzzySequentialMatch fuzzyScore filter item JS.Omitted =
       fuzzySequentialMatch fuzzyScore filter item
         (JS.Passed (createMatchDecorator "[" "]"))) /\
    (forall (E : Type) (items : list loc) (h : heap E),
       fuzzyFilterSort fuzzyScore filter items JS.Omitted h =
       fuzzyFilterSort fuzzyScore filter items
         (JS.Passed (createMatchDecorator "[" "]")) h) /\
    (forall item,
       (exists w, In w (strings item) /\ matches fuzzyScore filter w) ->
       exists r,
         fuzzySequentialMatch fuzzyScore filter item JS.Omitted = Some r /\
         decoratedStrings r =
         Some (map (fun w => _decorateMatch w ("[", "]")
                               (scoreWord fuzzyScore filter w))
                   (strings item))) /\
    (forall (E : Type) (items : list loc) (h : heap E),
       let '(h', out) := fuzzyFilterSort fuzzyScore filter items JS.Omitted h in
       forall l,
         In l items ->
         (exists w, In w (strings (fields (h l))) /\
                    matches fuzzyScore filter w) ->
         In l out /\
         decoratedStrings (fields (h' l)) =
         Some (map (fun w => _decorateMatch w ("[", "]")
                               (scoreWord fuzzyScore filter w))
                   (strings (fields (h l))))) /\
    (forall item,
       (exists w, In w (strings item) /\ matches fuzzyScore filter w) ->
       exists r,
         fuzzySequentialMatch fuzzyScore filter item JS.Null = Some r /\
         decoratedStrings r = Some []) /\
    (forall (E : Type) (items : list loc) (h : heap E),
       let '(h', out) := fuzzyFilterSort fuzzyScore filter items JS.Null h in
       forall l,
         In l items ->
         (exists w, In w (strings (fields (h l))) /\
                    matches fuzzyScore filter w) ->
         In l out /\ decoratedStrings (fields (h' l)) = Some []).
Proof.
  intros fuzzyScore filter.
  assert (Hagg : forall item decorate,
            (exists w, In w (strings item) /\ matches fuzzyScore filter w) ->
            exists r,
              fuzzySequentialMatch fuzzyScore filter item decorate = Some r /\
              score r <> None /\
              decoratedStrings r =
              Some (decorations_opt fuzzyScore
                      (JS.default_param decorate
                         (createMatchDecorator "[" "]"))
                      filter (strings item))).
  { intros item decorate Hmatch.
    apply (opt_score_defined_iff fuzzyScore filter item decorate) in Hmatch.
    destruct (fuzzySequentialMatch fuzzyScore filter item decorate)
      as [r |] eqn:Hm; [| now contradiction Hmatch].
    exists r. split; [reflexivity |].
    apply fuzzySequentialMatch_Some in Hm as (top & _ & ->).
    split; [discriminate | reflexivity]. }
  assert (Hdrv : forall (E : Type) (items : list loc) (h : heap E) decorate,
            let '(h', out) :=
              fuzzyFilterSort fuzzyScore filter items decorate h in
            forall l,
              In l items ->
              (exists w, In w (strings (fields (h l))) /\
                         matches fuzzyScore filter w) ->
              In l out /\
              decoratedStrings (fields (h' l)) =
              Some (decorations_opt fuzzyScore
                      (JS.default_param decorate
                         (createMatchDecorator "[" "]"))
                      filter (strings (fields (h l))))).
  { intros E items h decorate.
    destruct (fuzzyFilterSort fuzzyScore filter items decorate h)
      as [h' out] eqn:Hrun.
    intros l Hl Hmatch.
    destruct (Hagg (fields (h l)) decorate Hmatch) as (r & Hr & Hs & Hd).
    pose proof (fuzzyFilterSort_inv fuzzyScore filter items decorate h h' out
                  Hrun) as [Hh _].
    assert (Hfields : fields (h' l) =
                      {| score := score r;
                         strings := strings (fields (h l));
                         decoratedStrings := decoratedStrings r |}).
    { rewrite Hh, annotate_all_in by assumption. cbv zeta. now rewrite Hr. }
    split.
    - apply (in_ranked fuzzyScore filter items decorate h h' out l Hrun).
      split; [exact Hl |]. rewrite Hfields. cbn [score].
      now destruct (score r).
    - rewrite Hfields. exact Hd. }
  split; [reflexivity |]. split; [reflexivity |].
  split; [| split; [| split]].
  - intros item Hmatch.
    destruct (Hagg item JS.Omitted Hmatch) as (r & Hr & _ & Hd).
    now exists r.
  - intros E items h. exact (Hdrv E items h JS.Omitted).
  - intros item Hmatch.
    destruct (Hagg item JS.Null Hmatch) as (r & Hr & _ & Hd).
    now exists r.
  - intros E items h. exact (Hdrv E items h JS.Null).
Qed.

Lemma default_decorator_is_brackets_witness :
  let '(h', out) :=
    fuzzyFilterSort sampleScorer "x" [4; 1; 0]%nat JS.Omitted sampleHeap in
  In 1%nat out /\
  decoratedStrings (fields (h' 1%nat)) = Some [["f[a]n"]].
Proof.
  pose proof (proj1 (proj2 (proj2 (proj2
                (default_decorator_is_brackets sampleScorer "x"))))
                unit [4; 1; 0]%nat sampleHeap) as H.
  destruct (fuzzyFilterSort sampleScorer "x" [4; 1; 0]%nat JS.Omitted
              sampleHeap) as [h' out].
  apply (H 1%nat).
  - simpl; tauto.
  - exists "fan". split; [now left | discriminate].
Defined.

(** * Further properties of the code *)

(** ** The aggregator, beyond the claims *)

Section AggregatorExtras.

Variable fuzzyScore : Scorer.

Lemma remap_nonzero (s : Z) : remap s <> 0.
Proof. unfold remap. destruct (Z.eqb_spec s 0); lia. Qed.

Lemma rawScores_incl filter ws ws' :
  incl ws ws' ->
  incl (rawScores fuzzyScore filter ws) (rawScores fuzzyScore filter ws').
Proof.
  intros H s Hs. apply in_rawScores in Hs as (w & sc & Hw & Hsc & Hs).
  apply in_rawScores. exists w, sc. auto.
Qed.

(** A score among more aliases is at least the score among fewer. *)
Lemma opt_score_incl filter a b da db s :
  incl (strings a) (strings b) ->
  opt_score (fuzzySequentialMatch fuzzyScore filter a da) = Some s ->
  exists s',
    opt_score (fuzzySequentialMatch fuzzyScore filter b db) = Some s' /\
    s <= s'.
Proof.
  intros Hincl Hs.
  destruct (fuzzySequentialMatch fuzzyScore filter a da) as [r |] eqn:Ha;
    [| discriminate].
  apply fuzzySequentialMatch_Some in Ha as (top & [Hin _] & ->).
  cbn [opt_score score] in Hs. injection Hs as ->.
  assert (Hin' : In s (map remap (rawScores fuzzyScore filter (strings b)))).
  { apply in_map_iff in Hin as (x & <- & Hx).
    apply in_map. now apply (rawScores_incl filter _ _ Hincl). }
  destruct (fuzzySequentialMatch fuzzyScore filter b db) as [r |] eqn:Hb.
  - apply fuzzySequentialMatch_Some in Hb as (top & [_ Hmax] & ->).
    exists top. split; [reflexivity | now apply Hmax].
  - exfalso. rewrite fuzzySequentialMatch_eq in Hb.
    destruct (fold_left better _ _) as [| top] eqn:Hf; [| discriminate].
    apply fold_better_nil_iff in Hf. rewrite Hf in Hin'. exact Hin'.
Qed.

(** The decorator and the fields a pass overwrites do not enter the score. *)
Lemma opt_score_strings filter a b da db :
  strings a = strings b ->
  opt_score (fuzzySequentialMatch fuzzyScore filter a da) =
  opt_score (fuzzySequentialMatch fuzzyScore filter b db).
Proof.
  intros H. rewrite !fuzzySequentialMatch_eq, H.
  now destruct (fold_left better _ _).
Qed.

End AggregatorExtras.

(** X1.  The aggregator never returns the score 0, and after a pass no
    listed item holds the score 0: a score is either absent or non-zero. *)
Theorem score_is_never_zero :
  forall (fuzzyScore : Scorer) (filter : string)
         (decorate : JS.arg MatchDecorator),
    (forall item r,
       fuzzySequentialMatch fuzzyScore filter item decorate = Some r ->
       exists s, score r = Some s /\ s <> 0) /\
    (forall (E : Type) (items : list loc) (h : heap E),
       let '(h', _) := fuzzyFilterSort fuzzyScore filter items decorate h in
       forall l, In l items -> score (fields (h' l)) <> Some 0).
Proof.
  intros fuzzyScore filter decorate.
  assert (Hagg : forall item r,
             fuzzySequentialMatch fuzzyScore filter item decorate = Some r ->
             exists s, score r = Some s /\ s <> 0).
  { intros item r Hr.
    apply fuzzySequentialMatch_Some in Hr as (top & [Hin _] & ->).
    exists top. split; [reflexivity |].
    apply in_map_iff in Hin as (x & <- & _). apply remap_nonzero. }
  split; [exact Hagg |].
  intros E items h.
  destruct (fuzzyFilterSort fuzzyScore filter items decorate h)
    as [h' out] eqn:Hrun.
  intros l Hl.
  apply fuzzyFilterSort_inv in Hrun as [Hh _].
  rewrite Hh, annotate_all_in by assumption. cbn [score].
  destruct (fuzzySequentialMatch fuzzyScore filter (fields (h l)) decorate)
    as [r |] eqn:Hm; [| discriminate].
  destruct (Hagg _ _ Hm) as (s & Hs & Hnz). cbn [opt_score].
  rewrite Hs. congruence.
Qed.

(** X2.  Adding aliases never lowers an item's score and never turns a
    match into a miss: when every alias of [a] is an alias of [b] and [a]
    matches with score [s], then [b] matches with a score of at least [s]. *)
Theorem more_aliases_never_lower_the_score :
  forall (fuzzyScore : Scorer) (filter : string) (a b : ScorableTextItem)
         (da db : JS.arg MatchDecorator) (s : Z),
    incl (strings a) (strings b) ->
    opt_score (fuzzySequentialMatch fuzzyScore filter a da) = Some s ->
    exists s',
      opt_score (fuzzySequentialMatch fuzzyScore filter b db) = Some s' /\
      s <= s'.
Proof.
  intros fuzzyScore filter a b da db s. apply opt_score_incl.
Qed.

Lemma more_aliases_never_lower_the_score_witness :
  exists s',
    opt_score (fuzzySequentialMatch sampleScorer "x" threeAliases JS.Omitted)
      = Some s' /\ -2 <= s'.
Proof.
  apply (more_aliases_never_lower_the_score sampleScorer "x"
           (fields (named "fan")) threeAliases JS.Null JS.Omitted (-2)).
  - intros w [<- | []]. simpl; tauto.
  - reflexivity.
Defined.

(** X3.  The score depends on the set of aliases only: their order, their
    repetitions and the two fields a pass overwrites play no part in it. *)
Theorem score_depends_on_alias_set_only :
  forall (fuzzyScore : Scorer) (filter : string) (a b : ScorableTextItem)
         (decorate : JS.arg MatchDecorator),
    (forall w, In w (strings a) <-> In w (strings b)) ->
    opt_score (fuzzySequentialMatch fuzzyScore filter a decorate) =
    opt_score (fuzzySequentialMatch fuzzyScore filter b decorate).
Proof.
  intros fuzzyScore filter a b decorate Hsame.
  assert (Hab : incl (strings a) (strings b)) by (intros w; apply Hsame).
  assert (Hba : incl (strings b) (strings a)) by (intros w; apply Hsame).
  destruct (opt_score (fuzzySequentialMatch fuzzyScore filter a decorate))
    as [s |] eqn:Ha;
    destruct (opt_score (fuzzySequentialMatch fuzzyScore filter b decorate))
      as [t |] eqn:Hb; try reflexivity.
  - destruct (opt_score_incl fuzzyScore filter a b decorate decorate s Hab Ha)
      as (s' & Hs' & Hle).
    destruct (opt_score_incl fuzzyScore filter b a decorate decorate t Hba Hb)
      as (t' & Ht' & Hle').
    f_equal. rewrite Hb in Hs'. rewrite Ha in Ht'.
    injection Hs' as <-. injection Ht' as <-. lia.
  - destruct (opt_score_incl fuzzyScore filter a b decorate decorate s Hab Ha)
      as (s' & Hs' & _). congruence.
  - destruct (opt_score_incl fuzzyScore filter b a decorate decorate t Hba Hb)
      as (t' & Ht' & _). congruence.
Qed.

Lemma score_depends_on_alias_set_only_witness :
  opt_score (fuzzySequentialMatch sampleScorer "x" threeAliases JS.Omitted) =
  opt_score
    (fuzzySequentialMatch sampleScorer "x"
       {| score := Some 3;
          strings := ["oven"; "door"; "fan"; "door"];
          decoratedStrings := None |} JS.Omitted).
Proof.
  apply (score_depends_on_alias_set_only sampleScorer "x").
  intros w. simpl. tauto.
Defined.

(** ** The stable sort, beyond the claims *)

Section SortExtras.

Context {A : Type}.

Lemma insert_ext_in (cmp cmp' : A -> A -> Z) x l :
  (forall b, In b l -> cmp x b = cmp' x b) ->
  JS.insert cmp x l = JS.insert cmp' x l.
Proof.
  induction l as [| y l IH]; intros H; [reflexivity |].
  cbn [JS.insert]. rewrite (H y (or_introl eq_refl)).
  destruct (cmp' x y <=? 0); [reflexivity |].
  f_equal. apply IH. intros b Hb. apply H. now right.
Qed.

Lemma sort_ext_in (cmp cmp' : A -> A -> Z) l :
  (forall a b, In a l -> In b l -> cmp a b = cmp' a b) ->
  JS.sort cmp l = JS.sort cmp' l.
Proof.
  induction l as [| x l IH]; intros H; [reflexivity |].
  cbn [JS.sort]. rewrite IH.
  - apply insert_ext_in. intros b Hb. apply H; [now left | right].
    eapply Permutation_in; [apply sort_perm | exact Hb].
  - intros a b Ha Hb. apply H; now right.
Qed.

Variables (key : A -> Z) (cmp : A -> A -> Z).
Hypothesis cmp_key : forall x y, cmp x y <= 0 <-> key y <= key x.

(** Sorting what is sorted already changes nothing. *)
Lemma sort_sorted_id l :
  StronglySorted (descending key) l -> JS.sort cmp l = l.
Proof.
  induction 1 as [| x l Hs IH Hx]; [reflexivity |].
  cbn [JS.sort]. rewrite IH.
  destruct l as [| y l]; [reflexivity |].
  cbn [JS.insert].
  inversion Hx as [| ? ? Hy _]; subst.
  apply cmp_key in Hy. apply Z.leb_le in Hy. now rewrite Hy.
Qed.

End SortExtras.

(** Lists of integers that are sorted downwards and hold the same elements
    are the same list. *)
Lemma sorted_perm_eq (l l' : list Z) :
  StronglySorted (fun a b => b <= a) l ->
  StronglySorted (fun a b => b <= a) l' ->
  Permutation l l' -> l = l'.
Proof.
  revert l'; induction l as [| a l IH]; intros l' Hs Hs' Hp.
  - now apply Permutation_nil in Hp.
  - destruct l' as [| b l'].
    + apply Permutation_sym, Permutation_nil in Hp. discriminate.
    + inversion Hs as [| ? ? Hl Ha]; subst.
      inversion Hs' as [| ? ? Hl' Hb]; subst.
      assert (Hab : a = b).
      { rewrite Forall_forall in Ha, Hb.
        assert (Hb_in : In b (a :: l))
          by (eapply Permutation_in;
              [apply Permutation_sym, Hp | now left]).
        assert (Ha_in : In a (b :: l'))
          by (eapply Permutation_in; [apply Hp | now left]).
        destruct Hb_in as [-> | Hb_in]; [reflexivity |].
        destruct Ha_in as [<- | Ha_in]; [reflexivity |].
        specialize (Ha b Hb_in). specialize (Hb a Ha_in). lia. }
      subst b. f_equal. apply IH; trivial.
      now apply Permutation_cons_inv in Hp.
Qed.

Lemma sorted_map_key {A : Type} (key : A -> Z) (l : list A) :
  StronglySorted (descending key) l ->
  StronglySorted (fun a b => b <= a) (map key l).
Proof.
  induction 1 as [| x l Hs IH Hx]; cbn [map]; constructor; [exact IH |].
  apply Forall_map. exact Hx.
Qed.

Lemma sorted_key_ext {A : Type} (key key' : A -> Z) (l : list A) :
  (forall a, key a = key' a) ->
  StronglySorted (descending key) l -> StronglySorted (descending key') l.
Proof.
  intros H. induction 1 as [| x l Hs IH Hx]; constructor; [exact IH |].
  eapply Forall_impl; [| exact Hx].
  intros a. unfold descending. now rewrite !H.
Qed.

Lemma count_occ_filter (p : loc -> bool) (l : list loc) (x : loc) :
  count_occ Nat.eq_dec (List.filter p l) x =
  if p x then count_occ Nat.eq_dec l x else 0%nat.
Proof.
  induction l as [| a l IH]; cbn [List.filter count_occ].
  - now destruct (p x).
  - destruct (Nat.eq_dec a x) as [-> | Hne].
    + destruct (p x) eqn:Hp; cbn [count_occ].
      * destruct (Nat.eq_dec x x); [now rewrite IH | congruence].
      * exact IH.
    + destruct (p a); cbn [count_occ];
        [destruct (Nat.eq_dec a x); [congruence |] |]; exact IH.
Qed.

(** ** The driver, beyond the claims *)

Section DriverExtras.

Variable fuzzyScore : Scorer.
Context {E : Type}.

(** [annotate] reads the alias list and carries the other fields over;
    it does not look at the score or the decorated strings that are there. *)
Lemma annotate_reads filter decorate filter' decorate' (o : Obj E) :
  annotate fuzzyScore filter decorate
    (annotate fuzzyScore filter' decorate' o) =
  annotate fuzzyScore filter decorate o.
Proof.
  unfold annotate at 1 3. cbn [fields rest strings].
  now rewrite (fuzzySequentialMatch_strings fuzzyScore filter
                 (fields (annotate fuzzyScore filter' decorate' o))
                 (fields o) decorate eq_refl).
Qed.

Lemma annotate_after_pass filter decorate filter' decorate' items
      (h : heap E) l :
  annotate fuzzyScore filter decorate
    (annotate_all fuzzyScore filter' decorate' items h l) =
  annotate fuzzyScore filter decorate (h l).
Proof.
  unfold annotate_all. destruct (in_dec Nat.eq_dec l items);
    [apply annotate_reads | reflexivity].
Qed.

(** The ranking looks at the listed objects only. *)
Lemma ranking_ext (ha hb : heap E) items :
  (forall l, In l items -> ha l = hb l) ->
  JS.sort (compareScore ha)
    (List.filter (fun i => is_defined (score (fields (ha i)))) items) =
  JS.sort (compareScore hb)
    (List.filter (fun i => is_defined (score (fields (hb i)))) items).
Proof.
  intros H.
  rewrite (filter_ext_in
             (fun i => is_defined (score (fields (ha i))))
             (fun i => is_defined (score (fields (hb i)))) items)
    by (intros l Hl; now rewrite (H l Hl)).
  apply sort_ext_in. intros a b Ha Hb.
  apply filter_In in Ha as [Ha _]. apply filter_In in Hb as [Hb _].
  unfold compareScore. now rewrite (H a Ha), (H b Hb).
Qed.

Lemma ranked_count filter items decorate (h h' : heap E) out l :
  fuzzyFilterSort fuzzyScore filter items decorate h = (h', out) ->
  count_occ Nat.eq_dec out l =
  if is_defined (score (fields (h' l)))
  then count_occ Nat.eq_dec items l else 0%nat.
Proof.
  intros Hrun. apply fuzzyFilterSort_inv in Hrun as [_ ->].
  rewrite (proj1 (Permutation_count_occ Nat.eq_dec _ _)
             (sort_perm (compareScore h') _) l).
  apply (count_occ_filter (fun i => is_defined (score (fields (h' i))))).
Qed.

Lemma ranked_sorted filter items decorate (h h' : heap E) out :
  fuzzyFilterSort fuzzyScore filter items decorate h = (h', out) ->
  StronglySorted (descending (fun l => score_or_0 (fields (h' l)))) out.
Proof.
  intros Hrun. apply fuzzyFilterSort_inv in Hrun as [_ ->].
  apply (sort_sorted (fun l => score_or_0 (fields (h' l)))).
  apply compareScore_key.
Qed.

Lemma ranked_defined filter items decorate (h h' : heap E) out l :
  fuzzyFilterSort fuzzyScore filter items decorate h = (h', out) ->
  In l out ->
  score (fields (h' l)) = Some (score_or_0 (fields (h' l))).
Proof.
  intros Hrun Hl.
  apply (in_ranked fuzzyScore filter items decorate h h' out l Hrun) in Hl.
  destruct Hl as [_ Hdef]. unfold score_or_0.
  now destruct (score (fields (h' l))).
Qed.

End DriverExtras.

(** X4.  Nothing is dropped or duplicated by the pass: a reference whose
    score is defined afterwards is returned exactly as often as it was
    listed, and a reference whose score is [undefined] is not returned. *)
Theorem returned_as_often_as_listed :
  forall (fuzzyScore : Scorer) (E : Type) (filter : string)
         (items : list loc) (decorate : JS.arg MatchDecorator) (h : heap E),
    let '(h', out) := fuzzyFilterSort fuzzyScore filter items decorate h in
    forall l,
      count_occ Nat.eq_dec out l =
      match score (fields (h' l)) with
      | Some _ => count_occ Nat.eq_dec items l
      | None => 0%nat
      end.
Proof.
  intros fuzzyScore E filter items decorate h.
  destruct (fuzzyFilterSort fuzzyScore filter items decorate h)
    as [h' out] eqn:Hrun.
  intros l.
  rewrite (ranked_count fuzzyScore filter items decorate h h' out l Hrun).
  now destruct (score (fields (h' l))).
Qed.

(** X5.  The pass returns the empty collection exactly when no alias of
    any listed item matches the filter. *)
Theorem nothing_returned_iff_nothing_matches :
  forall (fuzzyScore : Scorer) (E : Type) (filter : string)
         (items : list loc) (decorate : JS.arg MatchDecorator) (h : heap E),
    snd (fuzzyFilterSort fuzzyScore filter items decorate h) = [] <->
    (forall l w,
       In l items -> In w (strings (fields (h l))) ->
       ~ matches fuzzyScore filter w).
Proof.
  intros fuzzyScore E filter items decorate h.
  destruct (fuzzyFilterSort fuzzyScore filter items decorate h)
    as [h' out] eqn:Hrun. cbn [snd].
  assert (Hscore : forall l, In l items ->
            score (fields (h' l)) =
            opt_score (fuzzySequentialMatch fuzzyScore filter
                         (fields (h l)) decorate)).
  { intros l Hl.
    pose proof (fuzzyFilterSort_inv fuzzyScore filter items decorate h h'
                  out Hrun) as [Hh _].
    now rewrite Hh, annotate_all_in. }
  split.
  - intros -> l w Hl Hw Hm.
    assert (Hdef : score (fields (h' l)) <> None).
    { rewrite (Hscore l Hl). apply opt_score_defined_iff. now exists w. }
    assert (Hin : In l []).
    { apply (in_ranked fuzzyScore filter items decorate h h' [] l Hrun).
      split; [exact Hl |]. now destruct (score (fields (h' l))). }
    exact Hin.
  - intros Hnone. destruct out as [| l out]; [reflexivity |]. exfalso.
    assert (Hin : In l (l :: out)) by now left.
    apply (in_ranked fuzzyScore filter items decorate h h' _ l Hrun) in Hin.
    destruct Hin as [Hl Hdef].
    assert (Hd : score (fields (h' l)) <> None)
      by (destruct (score (fields (h' l))); [discriminate | discriminate]).
    rewrite (Hscore l Hl) in Hd.
    apply opt_score_defined_iff in Hd as (w & Hw & Hm).
    exact (Hnone l w Hl Hw Hm).
Qed.

(** X6.  The first item returned is a listed one and no listed item has a
    greater score. *)
Theorem first_returned_is_best :
  forall (fuzzyScore : Scorer) (E : Type) (filter : string)
         (items : list loc) (decorate : JS.arg MatchDecorator) (h : heap E)
         (top : loc) (others : list loc),
    snd (fuzzyFilterSort fuzzyScore filter items decorate h) = top :: others ->
    let h' := fst (fuzzyFilterSort fuzzyScore filter items decorate h) in
    In top items /\
    exists t,
      score (fields (h' top)) = Some t /\
      forall l s,
        In l items -> score (fields (h' l)) = Some s -> s <= t.
Proof.
  intros fuzzyScore E filter items decorate h top others.
  destruct (fuzzyFilterSort fuzzyScore filter items decorate h)
    as [h' out] eqn:Hrun. cbn [snd fst]. intros ->.
  pose proof (ranked_sorted fuzzyScore filter items decorate h h' _ Hrun)
    as Hsorted.
  pose proof (ranked_defined fuzzyScore filter items decorate h h' _ top Hrun
                (or_introl eq_refl)) as Htop.
  split.
  - apply (in_ranked fuzzyScore filter items decorate h h' _ top Hrun).
    now left.
  - exists (score_or_0 (fields (h' top))). split; [exact Htop |].
    intros l s Hl Hs.
    assert (Hin : In l (top :: others)).
    { apply (in_ranked fuzzyScore filter items decorate h h' _ l Hrun).
      split; [exact Hl | now rewrite Hs]. }
    destruct Hin as [<- | Hin].
    + rewrite Hs in Htop. injection Htop as ->. lia.
    + inversion Hsorted as [| ? ? _ Hall]; subst.
      rewrite Forall_forall in Hall. specialize (Hall l Hin).
      unfold descending in Hall. unfold score_or_0 in Hall at 1.
      now rewrite Hs in Hall.
Qed.

Lemma first_returned_is_best_witness :
  exists t,
    score (fields (fst (fuzzyFilterSort sampleScorer "x" [0; 1; 2; 3; 4]%nat
                          JS.Omitted sampleHeap) 2%nat)) = Some t /\
    forall l s,
      In l [0; 1; 2; 3; 4]%nat ->
      score (fields (fst (fuzzyFilterSort sampleScorer "x"
                            [0; 1; 2; 3; 4]%nat JS.Omitted sampleHeap) l))
      = Some s -> s <= t.
Proof.
  apply (first_returned_is_best sampleScorer unit "x" [0; 1; 2; 3; 4]%nat
           JS.Omitted sampleHeap 2%nat [0; 3; 1]%nat).
  reflexivity.
Defined.

(** X7.  A pass keeps nothing from earlier passes: after any earlier pass,
    over whatever collection and with whatever filter and decorator, a pass
    leaves the listed items and returns the collection exactly as it would
    have without the earlier one. *)
Theorem earlier_pass_leaves_no_trace :
  forall (fuzzyScore : Scorer) (E : Type)
         (filter0 filter : string) (items0 items : list loc)
         (decorate0 decorate : JS.arg MatchDecorator) (h : heap E),
    let '(h0, _) := fuzzyFilterSort fuzzyScore filter0 items0 decorate0 h in
    let '(h1, out1) := fuzzyFilterSort fuzzyScore filter items decorate h0 in
    let '(h2, out2) := fuzzyFilterSort fuzzyScore filter items decorate h in
    out1 = out2 /\ forall l, In l items -> h1 l = h2 l.
Proof.
  intros fuzzyScore E filter0 filter items0 items decorate0 decorate h.
  destruct (fuzzyFilterSort fuzzyScore filter0 items0 decorate0 h)
    as [h0 out0] eqn:Hrun0.
  destruct (fuzzyFilterSort fuzzyScore filter items decorate h0)
    as [h1 out1] eqn:Hrun1.
  destruct (fuzzyFilterSort fuzzyScore filter items decorate h)
    as [h2 out2] eqn:Hrun2.
  apply fuzzyFilterSort_inv in Hrun0 as [Hh0 _].
  apply fuzzyFilterSort_inv in Hrun1 as [Hh1 ->].
  apply fuzzyFilterSort_inv in Hrun2 as [Hh2 ->].
  assert (Hsame : forall l, In l items -> h1 l = h2 l).
  { intros l Hl. rewrite Hh1, Hh2. unfold annotate_all.
    destruct (in_dec Nat.eq_dec l items); [| contradiction].
    rewrite Hh0. apply annotate_after_pass. }
  split; [now apply ranking_ext | exact Hsame].
Qed.

(** X8.  The pass is idempotent on its result: handing the returned
    collection to a second pass with the same filter and decorator returns
    it in the same order and changes no object. *)
Theorem pass_on_the_result_changes_nothing :
  forall (fuzzyScore : Scorer) (E : Type) (filter : string)
         (items : list loc) (decorate : JS.arg MatchDecorator) (h : heap E),
    let '(h1, out1) := fuzzyFilterSort fuzzyScore filter items decorate h in
    let '(h2, out2) := fuzzyFilterSort fuzzyScore filter out1 decorate h1 in
    out2 = out1 /\ forall l, h2 l = h1 l.
Proof.
  intros fuzzyScore E filter items decorate h.
  destruct (fuzzyFilterSort fuzzyScore filter items decorate h)
    as [h1 out1] eqn:Hrun1.
  destruct (fuzzyFilterSort fuzzyScore filter out1 decorate h1)
    as [h2 out2] eqn:Hrun2.
  pose proof (ranked_sorted fuzzyScore filter items decorate h h1 out1 Hrun1)
    as Hsorted.
  assert (Hdef : forall l, In l out1 ->
                           is_defined (score (fields (h1 l))) = true).
  { intros l Hl.
    now apply (in_ranked fuzzyScore filter items decorate h h1 out1 l Hrun1). }
  assert (Hincl : forall l, In l out1 -> In l items).
  { intros l Hl.
    now apply (in_ranked fuzzyScore filter items decorate h h1 out1 l Hrun1). }
  apply fuzzyFilterSort_inv in Hrun1 as [Hh1 _].
  apply fuzzyFilterSort_inv in Hrun2 as [Hh2 ->].
  assert (Hsame : forall l, h2 l = h1 l).
  { intros l. rewrite Hh2. unfold annotate_all.
    destruct (in_dec Nat.eq_dec l out1) as [Hl | Hl]; [| reflexivity].
    rewrite Hh1. unfold annotate_all.
    destruct (in_dec Nat.eq_dec l items) as [Hi | Hi];
      [apply annotate_idem | contradiction (Hi (Hincl l Hl))]. }
  split; [| exact Hsame].
  rewrite (ranking_ext h2 h1 out1) by (intros l _; apply Hsame).
  rewrite forallb_filter_id by (apply forallb_forall; exact Hdef).
  apply (sort_sorted_id (fun l => score_or_0 (fields (h1 l)))).
  - apply compareScore_key.
  - exact Hsorted.
Qed.

(** X9.  The ranking does not depend on the order in which the items are
    listed: listing the same references in another order leaves the same
    objects behind and returns the same references with the same sequence
    of scores (references of equal score may change places). *)
Theorem ranking_ignores_input_order :
  forall (fuzzyScore : Scorer) (E : Type) (filter : string)
         (items items' : list loc) (decorate : JS.arg MatchDecorator)
         (h : heap E),
    Permutation items items' ->
    let '(h1, out) := fuzzyFilterSort fuzzyScore filter items decorate h in
    let '(h2, out') := fuzzyFilterSort fuzzyScore filter items' decorate h in
    (forall l, h1 l = h2 l) /\
    Permutation out out' /\
    map (fun l => score (fields (h1 l))) out =
    map (fun l => score (fields (h2 l))) out'.
Proof.
  intros fuzzyScore E filter items items' decorate h Hperm.
  destruct (fuzzyFilterSort fuzzyScore filter items decorate h)
    as [h1 out] eqn:Hrun1.
  destruct (fuzzyFilterSort fuzzyScore filter items' decorate h)
    as [h2 out'] eqn:Hrun2.
  assert (Hsame : forall l, h1 l = h2 l).
  { intros l.
    rewrite (proj1 (fuzzyFilterSort_inv fuzzyScore filter items decorate h
                      h1 out Hrun1)).
    rewrite (proj1 (fuzzyFilterSort_inv fuzzyScore filter items' decorate h
                      h2 out' Hrun2)).
    unfold annotate_all.
    destruct (in_dec Nat.eq_dec l items) as [Hi | Hi];
      destruct (in_dec Nat.eq_dec l items') as [Hi' | Hi'];
      try reflexivity; exfalso.
    - apply Hi'. eapply Permutation_in; eassumption.
    - apply Hi. eapply Permutation_in;
        [apply Permutation_sym|]; eassumption. }
  assert (Hout : Permutation out out').
  { apply (Permutation_count_occ Nat.eq_dec). intros l.
    rewrite (ranked_count fuzzyScore filter items decorate h h1 out l Hrun1).
    rewrite (ranked_count fuzzyScore filter items' decorate h h2 out' l Hrun2).
    rewrite (Hsame l).
    now rewrite (proj1 (Permutation_count_occ Nat.eq_dec _ _) Hperm l). }
  split; [exact Hsame |]. split; [exact Hout |].
  rewrite (map_ext_in _ (fun l => Some (score_or_0 (fields (h1 l)))) out)
    by (intros l Hl;
        apply (ranked_defined fuzzyScore filter items decorate h h1 out l
                 Hrun1 Hl)).
  rewrite (map_ext_in _ (fun l => Some (score_or_0 (fields (h1 l)))) out')
    by (intros l Hl; rewrite (Hsame l);
        apply (ranked_defined fuzzyScore filter items' decorate h h2 out' l
                 Hrun2 Hl)).
  rewrite <- !(map_map (fun l => score_or_0 (fields (h1 l))) Some).
  f_equal. apply sorted_perm_eq.
  - apply sorted_map_key.
    apply (ranked_sorted fuzzyScore filter items decorate h h1 out Hrun1).
  - apply sorted_map_key.
    pose proof (ranked_sorted fuzzyScore filter items' decorate h h2 out'
                  Hrun2) as Hs.
    apply (sorted_key_ext (fun l => score_or_0 (fields (h2 l)))); [| exact Hs].
    intros a. now rewrite Hsame.
  - now apply Permutation_map.
Qed.

Lemma ranking_ignores_input_order_witness :
  let '(h1, out) :=
    fuzzyFilterSort sampleScorer "x" [0; 1; 2; 3; 4]%nat JS.Omitted
      sampleHeap in
  let '(h2, out') :=
    fuzzyFilterSort sampleScorer "x" [4; 3; 2; 1; 0]%nat JS.Omitted
      sampleHeap in
  (forall l, h1 l = h2 l) /\
  Permutation out out' /\
  map (fun l => score (fields (h1 l))) out =
  map (fun l => score (fields (h2 l))) out'.
Proof.
  apply (ranking_ignores_input_order sampleScorer unit "x"
           [0; 1; 2; 3; 4]%nat [4; 3; 2; 1; 0]%nat JS.Omitted sampleHeap).
  change [4; 3; 2; 1; 0]%nat with (rev [0; 1; 2; 3; 4]%nat).
  apply Permutation_rev.
Defined.

(** ** The decorator, beyond the claims *)

Lemma length_append (a b : string) :
  String.length (a ++ b) = (String.length a + String.length b)%nat.
Proof. induction a as [| c a IH]; simpl; [reflexivity | now rewrite IH]. Qed.

Lemma split_head_not_colon (s : string) :
  starts_colon s = false ->
  match JS.split "::" s with
  | h :: _ => starts_colon h = false
  | [] => True
  end.
Proof.
  destruct s as [| c s]; [reflexivity |]. intros Hc.
  assert (Hp : String.prefix "::" (String c s) = false).
  { rewrite prefix_sep. cbn [starts_colon] in Hc. now rewrite Hc. }
  rewrite (split_char c s Hp).
  destruct (JS.split "::" s); [exact I | exact Hc].
Qed.

(** No fragment that [split] returns holds the separator. *)
Lemma split_sep_free (s : string) :
  Forall (fun f => contains_sep f = false) (JS.split "::" s).
Proof.
  induction s as [| s IH | c s Hp IH] using sep_ind.
  - repeat constructor.
  - rewrite split_sep. constructor; [reflexivity | exact IH].
  - rewrite (split_char c s Hp).
    pose proof (split_head_not_colon s) as Hhead.
    destruct (JS.split "::" s) as [| h t]; [constructor |].
    inversion IH as [| ? ? Hh Ht]; subst.
    cbn [prepend append]. constructor; [| exact Ht].
    cbn [contains_sep]. rewrite Hh, orb_false_r.
    rewrite prefix_sep in *.
    destruct (Ascii.eqb c ":"); [| reflexivity].
    cbn [andb] in *. now apply Hhead.
Qed.

Lemma colon_free_app (a b : string) :
  colon_free (a ++ b) = (colon_free a && colon_free b)%bool.
Proof.
  induction a as [| c a IH]; simpl; [reflexivity |].
  now rewrite IH, andb_assoc.
Qed.

Lemma colon_free_substring (s : string) :
  colon_free s = true ->
  forall n m, colon_free (String.substring n m s) = true.
Proof.
  induction s as [| c s IH]; intros H n m.
  - now destruct n, m.
  - cbn [colon_free] in H. apply andb_true_iff in H as [Hc Hs].
    destruct n as [| n]; cbn [String.substring].
    + destruct m as [| m]; [reflexivity |].
      cbn [colon_free]. now rewrite Hc, IH.
    + now apply IH.
Qed.

Lemma colon_free_js_substring (s : string) (a b : Z) :
  colon_free s = true -> colon_free (JS.substring s a b) = true.
Proof. intros H. now apply colon_free_substring. Qed.

(** A text without colons is its own single fragment. *)
Lemma split_colon_free (s : string) :
  colon_free s = true -> JS.split "::" s = [s].
Proof.
  induction s as [| c s IH]; [reflexivity |].
  cbn [colon_free]. intros H. apply andb_true_iff in H as [Hc Hs].
  rewrite split_char.
  - now rewrite (IH Hs).
  - rewrite prefix_sep. now destruct (Ascii.eqb c ":").
Qed.

Lemma clamp_clamp (s : string) (a : Z) :
  JS.clamp s (Z.of_nat (JS.clamp s a)) = JS.clamp s a.
Proof. unfold JS.clamp. rewrite Nat2Z.id. lia. Qed.

Lemma js_substring_clamp (s : string) (a a' b b' : Z) :
  JS.clamp s a = JS.clamp s a' -> JS.clamp s b = JS.clamp s b' ->
  JS.substring s a b = JS.substring s a' b'.
Proof. unfold JS.substring. now intros -> ->. Qed.

Section WrappingExtras.

Variables word left right : string.

Lemma wrap_from_clamp (ms : list IMatch) :
  forall pos pos',
    JS.clamp word pos = JS.clamp word pos' ->
    wrap_from word left right pos ms =
    wrap_from word left right pos' (map (clampMatch word) ms).
Proof.
  induction ms as [| m ms IH]; intros pos pos' Hpos; cbn [map wrap_from].
  - unfold JS.substring_from. now apply js_substring_clamp.
  - cbn [clampMatch m_start m_end].
    rewrite (js_substring_clamp word pos pos' (m_start m)
               (Z.of_nat (JS.clamp word (m_start m))))
      by (trivial; now rewrite clamp_clamp).
    rewrite (js_substring_clamp word (m_start m)
               (Z.of_nat (JS.clamp word (m_start m))) (m_end m)
               (Z.of_nat (JS.clamp word (m_end m))))
      by (now rewrite clamp_clamp).
    rewrite (IH (m_end m) (Z.of_nat (JS.clamp word (m_end m))))
      by (now rewrite clamp_clamp).
    reflexivity.
Qed.

Lemma wrap_from_length (ms : list IMatch) :
  forall pos,
    ranges_ok word pos ms ->
    String.length (wrap_from word left right pos ms) =
    (String.length (JS.substring_from word pos) +
     List.length ms * (String.length left + String.length right))%nat.
Proof.
  induction ms as [| m ms IH]; intros pos Hok; cbn [wrap_from List.length].
  - lia.
  - pose proof Hok as (Hp & Hm & Hr).
    pose proof (ranges_ok_bounds word ms _ Hr) as Hend.
    rewrite (js_substring_from_app word pos (m_start m)) by lia.
    rewrite (js_substring_from_app word (m_start m) (m_end m)) by lia.
    rewrite !length_append, (IH _ Hr). lia.
Qed.

Lemma wrap_from_colon_free (ms : list IMatch) :
  colon_free word = true -> colon_free left = true ->
  colon_free right = true ->
  forall pos, colon_free (wrap_from word left right pos ms) = true.
Proof.
  intros Hw Hl Hr.
  induction ms as [| m ms IH]; intros pos; cbn [wrap_from].
  - now apply colon_free_js_substring.
  - rewrite !colon_free_app, Hl, Hr, IH.
    now rewrite !colon_free_js_substring.
Qed.

End WrappingExtras.

Lemma wrap_from_no_markers (word : string) (ms : list IMatch) :
  forall pos,
    ranges_ok word pos ms ->
    wrap_from word EmptyString EmptyString pos ms =
    JS.substring_from word pos.
Proof.
  induction ms as [| m ms IH]; intros pos Hok; cbn [wrap_from].
  - reflexivity.
  - pose proof Hok as (Hp & Hm & Hr).
    pose proof (ranges_ok_bounds word ms _ Hr) as Hend.
    rewrite (IH _ Hr). cbn [append].
    rewrite (js_substring_from_app word pos (m_start m)) by lia.
    now rewrite (js_substring_from_app word (m_start m) (m_end m)) by lia.
Qed.

(** X10.  With a scorer result, no fragment the decorator returns holds the
    separator, whatever the word, the markers and the ranges are. *)
Theorem decorated_fragments_hold_no_separator :
  forall (word left right : string) (sc : FuzzyScore),
    Forall (fun fragment => contains_sep fragment = false)
           (_decorateMatch word (left, right) (Some sc)).
Proof.
  intros word left right sc. apply split_sep_free.
Qed.

(** X11.  Decoration adds the markers and nothing else: with ranges that
    are in order and within the word, the fragments joined by the separator
    are as long as the word plus one left and one right marker per range. *)
Theorem decoration_adds_one_marker_pair_per_range :
  forall (word left right : string) (sc : FuzzyScore),
    ranges_ok word 0 (createMatches sc) ->
    String.length
      (JS.join "::" (_decorateMatch word (left, right) (Some sc))) =
    (String.length word +
     List.length (createMatches sc) *
       (String.length left + String.length right))%nat.
Proof.
  intros word left right sc Hok.
  cbn [_decorateMatch fst snd].
  rewrite join_split, wrapMatches_eq, (wrap_from_length _ _ _ _ _ Hok).
  now rewrite js_substring_from_0.
Qed.

Lemma decoration_adds_one_marker_pair_per_range_witness :
  String.length
    (JS.join "::"
       (_decorateMatch "light::kitchen" ("<b>", "</b>")
          (Some {| fs_score := 4;
                   fs_ranges := [mkMatch 0 2; mkMatch 7 10] |}))) =
  (14 + 2 * (3 + 4))%nat.
Proof.
  apply (decoration_adds_one_marker_pair_per_range "light::kitchen"
           "<b>" "</b>"
           {| fs_score := 4; fs_ranges := [mkMatch 0 2; mkMatch 7 10] |}).
  simpl; lia.
Defined.

(** X12.  A scorer result without ranges, or a pair of empty markers with
    ranges that are in order and within the word, leaves the text as it is:
    the decorator returns the fragments of the word itself. *)
Theorem nothing_to_mark_gives_the_plain_fragments :
  (forall (word left right : string) (s : Z),
     _decorateMatch word (left, right)
       (Some {| fs_score := s; fs_ranges := [] |}) = JS.split "::" word) /\
  (forall (word : string) (sc : FuzzyScore),
     ranges_ok word 0 (createMatches sc) ->
     _decorateMatch word (EmptyString, EmptyString) (Some sc) =
     JS.split "::" word).
Proof.
  split.
  - intros word left right s. cbn [_decorateMatch fst snd].
    rewrite wrapMatches_eq. cbn [createMatches fs_ranges wrap_from].
    now rewrite js_substring_from_0.
  - intros word sc Hok. cbn [_decorateMatch fst snd].
    rewrite wrapMatches_eq, (wrap_from_no_markers _ _ _ Hok).
    now rewrite js_substring_from_0.
Qed.

Lemma nothing_to_mark_gives_the_plain_fragments_witness :
  _decorateMatch "light::kitchen" (EmptyString, EmptyString)
    (Some {| fs_score := 4; fs_ranges := [mkMatch 0 2; mkMatch 7 10] |}) =
  JS.split "::" "light::kitchen".
Proof.
  apply (proj2 nothing_to_mark_gives_the_plain_fragments).
  simpl; lia.
Defined.

(** X13.  When neither the word nor the markers hold a colon, the decorator
    returns exactly one fragment, whatever the ranges are. *)
Theorem no_colon_gives_one_fragment :
  forall (word left right : string) (sc : FuzzyScore),
    colon_free word = true ->
    colon_free left = true ->
    colon_free right = true ->
    _decorateMatch word (left, right) (Some sc) =
    [wrapMatches word left right (createMatches sc)].
Proof.
  intros word left right sc Hw Hl Hr.
  cbn [_decorateMatch fst snd]. apply split_colon_free.
  rewrite wrapMatches_eq. now apply wrap_from_colon_free.
Qed.

Lemma no_colon_gives_one_fragment_witness :
  _decorateMatch "kitchen" ("[", "]")
    (Some {| fs_score := 4; fs_ranges := [mkMatch 5 2; mkMatch 1 40] |}) =
  [wrapMatches "kitchen" "[" "]" [mkMatch 5 2; mkMatch 1 40]].
Proof.
  apply (no_colon_gives_one_fragment "kitchen" "[" "]"
           {| fs_score := 4; fs_ranges := [mkMatch 5 2; mkMatch 1 40] |});
    reflexivity.
Defined.

(** X14.  Offsets outside the word are read as the nearest offset inside
    it: bringing every range into the word first gives the same fragments,
    so no range can make the decorator read outside the word. *)
Theorem offsets_outside_the_word_are_clamped :
  forall (word left right : string) (s : Z) (ms : list IMatch),
    _decorateMatch word (left, right)
      (Some {| fs_score := s; fs_ranges := ms |}) =
    _decorateMatch word (left, right)
      (Some {| fs_score := s; fs_ranges := map (clampMatch word) ms |}).
Proof.
  intros word left right s ms.
  cbn [_decorateMatch fst snd createMatches fs_ranges].
  rewrite !wrapMatches_eq.
  now rewrite (wrap_from_clamp word left right ms 0 0 eq_refl).
Qed.

(** ** The service-action editor *)

Section ServiceActionFacts.

Import HaServiceAction.

Lemma lookup_set_same k v props : lookup k (set k v props) = Some v.
Proof.
  induction props as [| [k' v'] r IH]; cbn [set lookup].
  - now rewrite String.eqb_refl.
  - destruct (String.eqb_spec k' k) as [-> | Hne]; cbn [lookup].
    + now rewrite String.eqb_refl.
    + destruct (String.eqb_spec k' k); [contradiction | exact IH].
Qed.

Lemma lookup_set_other k k' v props :
  k' <> k -> lookup k' (set k v props) = lookup k' props.
Proof.
  intros Hne. induction props as [| [k0 v0] r IH]; cbn [set lookup].
  - destruct (String.eqb_spec k k'); [congruence | reflexivity].
  - destruct (String.eqb_spec k0 k) as [-> | Hk]; cbn [lookup].
    + destruct (String.eqb_spec k k'); [congruence | reflexivity].
    + destruct (String.eqb_spec k0 k'); [reflexivity | exact IH].
Qed.

Lemma lookup_delete_same k props : lookup k (delete k props) = None.
Proof.
  induction props as [| [k' v'] r IH]; cbn [delete lookup]; [reflexivity |].
  destruct (String.eqb_spec k' k) as [-> | Hne]; [exact IH |].
  cbn [lookup]. destruct (String.eqb_spec k' k); [contradiction | exact IH].
Qed.

Lemma lookup_delete_other k k' props :
  k' <> k -> lookup k' (delete k props) = lookup k' props.
Proof.
  intros Hne. induction props as [| [k0 v0] r IH]; cbn [delete lookup];
    [reflexivity |].
  destruct (String.eqb_spec k0 k) as [-> | Hk].
  - destruct (String.eqb_spec k k'); [congruence | exact IH].
  - cbn [lookup]. destruct (String.eqb_spec k0 k'); [reflexivity | exact IH].
Qed.

Lemma truthy_prop_object act k :
  truthy (prop act k) = true -> exists props, act = Object props.
Proof. destruct act; try discriminate. intros _. now eexists. Qed.

Lemma changed_has_action changed :
  In "action" changed -> existsb (String.eqb "action") changed = true.
Proof.
  intros H. apply existsb_exists. exists "action".
  split; [exact H | apply String.eqb_refl].
Qed.

Lemma app_one_neq {A : Type} (l : list A) (x : A) : (l ++ [x])%list <> l.
Proof.
  intros H. apply (f_equal (@List.length A)) in H.
  rewrite length_app in H. simpl in H. lia.
Qed.

End ServiceActionFacts.

(** X15.  When the action passes the check, holds no template and has a
    truthy [entity_id], [updated] fires nothing, leaves [action] alone and
    sets [_action] to an object without [entity_id], whose [data] holds that
    [entity_id] next to every other key the action's [data] had; every other
    key of the action is carried over. *)
Theorem entity_id_moves_into_data :
  forall (Err : Type) (assertStruct : HaServiceAction.value -> option Err)
         (hasTemplate : HaServiceAction.value -> bool)
         (localize : string -> string) (changed : list string)
         (this : HaServiceAction.Element Err),
    In "action" changed ->
    assertStruct (HaServiceAction.action this) = None ->
    hasTemplate (HaServiceAction.action this) = false ->
    HaServiceAction.truthy
      (HaServiceAction.prop (HaServiceAction.action this) "entity_id") = true ->
    exists props data',
      HaServiceAction.updated Err assertStruct hasTemplate localize changed this
      = HaServiceAction.Returns
          {| HaServiceAction.action := HaServiceAction.action this;
             HaServiceAction._action := HaServiceAction.Object props;
             HaServiceAction.fired := HaServiceAction.fired this |} /\
      HaServiceAction.lookup "entity_id" props = None /\
      HaServiceAction.lookup "data" props
        = Some (HaServiceAction.Object data') /\
      HaServiceAction.lookup "entity_id" data'
        = Some (HaServiceAction.prop (HaServiceAction.action this)
                  "entity_id") /\
      (forall k, k <> "entity_id" ->
         HaServiceAction.lookup k data' =
         HaServiceAction.lookup k
           (HaServiceAction.own_props
              (HaServiceAction.prop (HaServiceAction.action this) "data"))) /\
      (forall k, k <> "entity_id" -> k <> "data" ->
         HaServiceAction.lookup k props =
         HaServiceAction.lookup k
           (HaServiceAction.own_props (HaServiceAction.action this))).
Proof.
  intros Err assertStruct hasTemplate localize changed this
         Hchanged Hassert Htemplate Hentity.
  destruct (truthy_prop_object _ _ Hentity) as (aprops & Hact).
  eexists _, _. split; [| split; [| split; [| split; [| split]]]].
  - unfold HaServiceAction.updated.
    rewrite (changed_has_action changed Hchanged), Hassert, Htemplate.
    assert (Hn : HaServiceAction.nullish (HaServiceAction.action this)
                 = false) by now rewrite Hact.
    rewrite andb_false_r, Hentity, Hn.
    cbn [negb]. unfold HaServiceAction.moved. reflexivity.
  - apply lookup_delete_same.
  - rewrite lookup_delete_other by discriminate. apply lookup_set_same.
  - apply lookup_set_same.
  - intros k Hk. now apply lookup_set_other.
  - intros k Hk Hd.
    rewrite lookup_delete_other, lookup_set_other by assumption.
    reflexivity.
Qed.

Lemma entity_id_moves_into_data_witness :
  HaServiceAction.updated string onlyObjects (fun _ => false) (fun k => k)
    ["action"] (freshElement turnOnKitchen)
  = HaServiceAction.Returns
      {| HaServiceAction.action := turnOnKitchen;
         HaServiceAction._action := kitchenInData;
         HaServiceAction.fired := [] |}.
Proof.
  pose proof (entity_id_moves_into_data string onlyObjects (fun _ => false)
                (fun k => k) ["action"] (freshElement turnOnKitchen)
                (or_introl eq_refl) eq_refl eq_refl eq_refl)
    as (props & data' & Hrun & _).
  rewrite Hrun. vm_compute in Hrun. injection Hrun as <-. reflexivity.
Defined.

(** X16.  Whenever [updated] takes the action over without firing an event,
    the [_action] it leaves has no truthy [entity_id] at its top level. *)
Theorem accepted_action_has_no_entity_id :
  forall (Err : Type) (assertStruct : HaServiceAction.value -> option Err)
         (hasTemplate : HaServiceAction.value -> bool)
         (localize : string -> string) (changed : list string)
         (this this' : HaServiceAction.Element Err),
    In "action" changed ->
    HaServiceAction.updated Err assertStruct hasTemplate localize changed this
      = HaServiceAction.Returns this' ->
    HaServiceAction.fired this' = HaServiceAction.fired this ->
    HaServiceAction.truthy
      (HaServiceAction.prop (HaServiceAction._action this') "entity_id")
      = false.
Proof.
  intros Err assertStruct hasTemplate localize changed this this'
         Hchanged Hrun Hfired.
  unfold HaServiceAction.updated in Hrun.
  rewrite (changed_has_action changed Hchanged) in Hrun. cbn [negb] in Hrun.
  destruct (assertStruct (HaServiceAction.action this)) as [error |].
  { injection Hrun as <-. cbn in Hfired. now apply app_one_neq in Hfired. }
  destruct (HaServiceAction.truthy (HaServiceAction.action this)
            && hasTemplate (HaServiceAction.action this))%bool.
  { injection Hrun as <-. cbn in Hfired. now apply app_one_neq in Hfired. }
  destruct (HaServiceAction.nullish (HaServiceAction.action this));
    [discriminate |].
  destruct (HaServiceAction.truthy
              (HaServiceAction.prop (HaServiceAction.action this)
                 "entity_id")) eqn:Hentity;
    injection Hrun as <-; cbn [HaServiceAction._action].
  - unfold HaServiceAction.moved. cbn [HaServiceAction.prop].
    now rewrite lookup_delete_same.
  - exact Hentity.
Qed.

Lemma accepted_action_has_no_entity_id_witness :
  HaServiceAction.truthy
    (HaServiceAction.prop kitchenInData "entity_id") = false.
Proof.
  apply (accepted_action_has_no_entity_id string onlyObjects (fun _ => false)
           (fun k => k) ["action"] (freshElement turnOnKitchen)
           {| HaServiceAction.action := turnOnKitchen;
              HaServiceAction._action := kitchenInData;
              HaServiceAction.fired := [] |});
    [now left | reflexivity | reflexivity].
Defined.

(** X17.  [updated] never changes the [action] property and does nothing
    at all unless [action] is among the changed properties.  It fires at
    most one event, always of type [ui-mode-not-available], and when it
    fires it leaves [_action] as it was.  A [TypeError] escapes only for an
    action that is [undefined] or [null] and that the check let through. *)
Theorem updated_fires_or_takes_over :
  forall (Err : Type) (assertStruct : HaServiceAction.value -> option Err)
         (hasTemplate : HaServiceAction.value -> bool)
         (localize : string -> string) (changed : list string)
         (this : HaServiceAction.Element Err),
    match HaServiceAction.updated Err assertStruct hasTemplate localize
            changed this with
    | HaServiceAction.Returns this' =>
        HaServiceAction.action this' = HaServiceAction.action this /\
        (~ In "action" changed -> this' = this) /\
        (HaServiceAction.fired this' = HaServiceAction.fired this \/
         exists d,
           HaServiceAction.fired this' =
           (HaServiceAction.fired this ++
            [HaServiceAction.mkEvent "ui-mode-not-available" d])%list /\
           HaServiceAction._action this' = HaServiceAction._action this)
    | HaServiceAction.TypeError =>
        In "action" changed /\
        HaServiceAction.nullish (HaServiceAction.action this) = true /\
        assertStruct (HaServiceAction.action this) = None
    end.
Proof.
  intros Err assertStruct hasTemplate localize changed this.
  unfold HaServiceAction.updated.
  destruct (existsb (String.eqb "action") changed) eqn:Hchanged; cbn [negb].
  2: { split; [reflexivity |]. split; [reflexivity | now left]. }
  assert (Hin : In "action" changed).
  { apply existsb_exists in Hchanged as (k & Hk & Heq).
    apply String.eqb_eq in Heq. now subst k. }
  destruct (assertStruct (HaServiceAction.action this)) as [error |].
  { split; [reflexivity |]. split; [intros C; contradiction |].
    right. now eexists. }
  destruct (HaServiceAction.truthy (HaServiceAction.action this)
            && hasTemplate (HaServiceAction.action this))%bool.
  { split; [reflexivity |]. split; [intros C; contradiction |].
    right. now eexists. }
  destruct (HaServiceAction.nullish (HaServiceAction.action this)) eqn:Hn.
  { now repeat split. }
  destruct (HaServiceAction.truthy _);
    (split; [reflexivity |]; split; [intros C; contradiction | now left]).
Qed.

(** X18.  The object that [updated] builds needs no further rewriting:
    when it comes back as the [action], passes the check and holds no
    template, it is taken over as [_action] unchanged and nothing is
    fired. *)
Theorem rewritten_action_is_taken_over_unchanged :
  forall (Err : Type) (assertStruct : HaServiceAction.value -> option Err)
         (hasTemplate : HaServiceAction.value -> bool)
         (localize : string -> string) (changed : list string)
         (act entity_id data previous : HaServiceAction.value)
         (events : list (HaServiceAction.Event Err)),
    let rewritten := HaServiceAction.moved act entity_id data in
    In "action" changed ->
    assertStruct rewritten = None ->
    hasTemplate rewritten = false ->
    HaServiceAction.updated Err assertStruct hasTemplate localize changed
      {| HaServiceAction.action := rewritten;
         HaServiceAction._action := previous;
         HaServiceAction.fired := events |}
    = HaServiceAction.Returns
        {| HaServiceAction.action := rewritten;
           HaServiceAction._action := rewritten;
           HaServiceAction.fired := events |}.
Proof.
  intros Err assertStruct hasTemplate localize changed act entity_id data
         previous events rewritten Hchanged Hassert Htemplate.
  unfold HaServiceAction.updated. cbn [HaServiceAction.action].
  rewrite (changed_has_action changed Hchanged), Hassert, Htemplate.
  rewrite andb_false_r. cbn [negb].
  subst rewritten. unfold HaServiceAction.moved.
  cbn [HaServiceAction.nullish HaServiceAction.prop].
  now rewrite lookup_delete_same.
Qed.

Lemma rewritten_action_is_taken_over_unchanged_witness :
  HaServiceAction.updated string onlyObjects (fun _ => false) (fun k => k)
    ["action"]
    {| HaServiceAction.action := kitchenInData;
       HaServiceAction._action := HaServiceAction.Undefined;
       HaServiceAction.fired := [] |}
  = HaServiceAction.Returns
      {| HaServiceAction.action := kitchenInData;
         HaServiceAction._action := kitchenInData;
         HaServiceAction.fired := [] |}.
Proof.
  exact (rewritten_action_is_taken_over_unchanged string onlyObjects
           (fun _ => false) (fun k => k) ["action"] turnOnKitchen
           (HaServiceAction.Str "light.kitchen")
           (HaServiceAction.Object [("brightness", HaServiceAction.Num 255)])
           HaServiceAction.Undefined [] (or_introl eq_refl) eq_refl eq_refl).
Defined.

(** ** The decorator and the ranking *)

Lemma ranking_by_score {E : Type} (ha hb : heap E) (items : list loc) :
  (forall l, In l items ->
             score (fields (ha l)) = score (fields (hb l))) ->
  JS.sort (compareScore ha)
    (List.filter (fun i => is_defined (score (fields (ha i)))) items) =
  JS.sort (compareScore hb)
    (List.filter (fun i => is_defined (score (fields (hb i)))) items).
Proof.
  intros H.
  rewrite (filter_ext_in
             (fun i => is_defined (score (fields (ha i))))
             (fun i => is_defined (score (fields (hb i)))) items)
    by (intros l Hl; now rewrite (H l Hl)).
  apply sort_ext_in. intros a b Ha Hb.
  apply filter_In in Ha as [Ha _]. apply filter_In in Hb as [Hb _].
  unfold compareScore, score_or_0. now rewrite (H a Ha), (H b Hb).
Qed.

Section EffectsRanking.

Variable X : Type.
Variable fuzzyScore : Effects.Scorer X.

Lemma forced_scoreWord filter w r :
  Effects.scoreWord X fuzzyScore filter w = Effects.Returns r ->
  scoreWord (Effects.forced fuzzyScore) filter w = r.
Proof.
  unfold Effects.scoreWord, scoreWord, Effects.forced. now intros ->.
Qed.

(** With a decorator that leaves the scores alone, a loop that returns
    has computed the running maximum of the scorer's own scores. *)
Lemma eff_match_loop_top filter (decorate : option (Effects.Decorator X)) ws :
  (forall d, decorate = Some d ->
     forall word sc, Effects.writes d word sc = sc) ->
  forall top ds top' ds',
    Effects.match_loop X fuzzyScore filter decorate ws (top, ds)
    = Effects.Returns (top', ds') ->
    top' = fold_left better
             (map remap (rawScores (Effects.forced fuzzyScore) filter ws))
             top.
Proof.
  intros Hw. induction ws as [| w ws IH]; intros top ds top' ds';
    cbn [Effects.match_loop].
  - intros H; now injection H as <- _.
  - unfold Effects.match_step.
    destruct (Effects.scoreWord X fuzzyScore filter w) as [r | x] eqn:Hr;
      [| discriminate].
    cbn [Effects.bind]. unfold rawScores. cbn [flat_map].
    fold (rawScores (Effects.forced fuzzyScore) filter ws).
    rewrite (forced_scoreWord filter w r Hr).
    assert (Hafter : forall d, decorate = Some d ->
                       option_map (Effects.writes d w) r = r).
    { intros d Hd. destruct r as [sc |]; [| reflexivity].
      cbn [option_map]. now rewrite (Hw d Hd). }
    unfold Effects.decorate_word.
    destruct decorate as [d |].
    + destruct (Effects.call d w r) as [fr | x]; [| discriminate].
      cbn [Effects.bind]. rewrite (Hafter d eq_refl).
      destruct r as [sc |]; cbn [map app fold_left].
      * fold (better top (remap (fs_score sc))).
        destruct (gt (Int (remap (fs_score sc))) top) eqn:Hgt;
          cbn [Effects.bind]; intros H; apply IH in H; rewrite H;
          unfold better; now rewrite Hgt.
      * cbn [Effects.bind]. apply IH.
    + cbn [Effects.bind].
      destruct r as [sc |]; cbn [map app fold_left].
      * destruct (gt (Int (remap (fs_score sc))) top) eqn:Hgt;
          cbn [Effects.bind]; intros H; apply IH in H; rewrite H;
          unfold better; now rewrite Hgt.
      * cbn [Effects.bind]. apply IH.
Qed.

Lemma writes_nothing_default (decorate : JS.arg (Effects.Decorator X)) d :
  Effects.writes_nothing decorate ->
  JS.default_param decorate (Effects.pure (createMatchDecorator "[" "]"))
  = Some d ->
  forall word sc, Effects.writes d word sc = sc.
Proof.
  destruct decorate as [| | d']; cbn [JS.default_param Effects.writes_nothing].
  - intros _ H; injection H as <-. reflexivity.
  - discriminate.
  - intros Hd H; injection H as <-. exact Hd.
Qed.

Lemma writes_nothing_pass (decorate : JS.arg (Effects.Decorator X)) :
  Effects.writes_nothing decorate ->
  Effects.writes_nothing
    (JS.pass (JS.default_param decorate
                (Effects.pure (createMatchDecorator "[" "]")))).
Proof. destruct decorate as [| | d]; cbn; trivial. Qed.

(** With such a decorator, the score the aggregator returns is the score
    of the scorer alone. *)
Lemma eff_match_score filter item decorate m :
  Effects.writes_nothing decorate ->
  Effects.fuzzySequentialMatch X fuzzyScore filter item decorate
  = Effects.Returns m ->
  opt_score m =
  opt_score (fuzzySequentialMatch (Effects.forced fuzzyScore) filter item
               JS.Null).
Proof.
  intros Hw. unfold Effects.fuzzySequentialMatch.
  destruct (Effects.match_loop X fuzzyScore filter _ (strings item)
              (NEGATIVE_INFINITY, [])) as [[top ds] | x] eqn:Hloop;
    [| discriminate].
  cbn [Effects.bind]. intros H; injection H as <-.
  apply eff_match_loop_top in Hloop;
    [| intros d Hd; exact (writes_nothing_default decorate d Hw Hd)].
  rewrite fuzzySequentialMatch_eq, <- Hloop.
  now destruct top.
Qed.

End EffectsRanking.

(** The driver of [Effects], run on a scorer and a decorator of the first
    embedding with every field writable, returns, with the array and the
    store of the driver above. *)
Lemma eff_fuzzyFilterSort_pure (X : Type) (fuzzyScore : PureScorer)
  {E : Type} filter items (decorate : JS.arg MatchDecorator) (h : heap E) :
  exists hE,
    Effects.fuzzyFilterSort X (Effects.returning fuzzyScore)
      (fun _ _ => true) filter items (Effects.lift decorate) h
    = (hE, Effects.Returns
             (snd (fuzzyFilterSort fuzzyScore filter items decorate h))) /\
    forall l,
      hE l = fst (fuzzyFilterSort fuzzyScore filter items decorate h) l.
Proof.
  unfold Effects.fuzzyFilterSort, fuzzyFilterSort.
  rewrite lift_pass.
  destruct (eff_map_loop_pure X fuzzyScore filter
              (JS.pass (JS.default_param decorate
                          (createMatchDecorator "[" "]")))
              items h h [] (fun l => eq_refl)) as (hE & -> & HhE).
  destruct (fold_left _ items (h, [])) as [h1 mapped].
  cbn [fst snd] in *. exists hE. split; [| exact HhE].
  f_equal. f_equal. apply ranking_ext. intros l _. apply HhE.
Qed.



(** A decorator that does write to the scores changes the score: the
    array it is handed is the one whose first element is read next. *)
Example writing_decorator_changes_the_score :
  Effects.fuzzySequentialMatch string (Effects.returning sampleScorer) "x"
    (fields (named "fan")) (JS.Passed Effects.inflating)
  = Effects.Returns
      (Some {| score := Some 100;
               strings := ["fan"];
               decoratedStrings := Some [["fan"]] |}) /\
  Effects.fuzzySequentialMatch string (Effects.returning sampleScorer) "x"
    (fields (named "fan")) JS.Null
  = Effects.Returns
      (Some {| score := Some (-2);
               strings := ["fan"];
               decoratedStrings := Some [] |}).
Proof. split; reflexivity. Qed.
